(** * aws-ssm-put-on-ec2: staging a file through S3 and pulling it with SSM

    A shallow embedding of [src/s3-upload.ts], [src/ssm-transfer.ts] and the
    action entry point ([run], with [getInputs] and the shared interfaces),
    followed by the properties of the transfer pipeline and of the
    command-completion polling loop.

    The asynchronous functions of the source are sequential: every promise is
    awaited where it is created.  They are embedded in a writer-and-exception
    monad: a computation yields the chronological list of the effects it
    performed (log lines, file-system calls, AWS calls, sleeps) and either a
    value or the thrown JavaScript value.  Everything the program reads from
    outside (action inputs, file system, clock, S3, SSM) is a field of a
    [World] record. *)

From Stdlib Require Import String Ascii List NArith Arith Lia Bool.
From Stdlib Require Import DecimalString DecimalN.
Import ListNotations.
Open Scope string_scope.

(** ** JavaScript values *)

(** A thrown value: an instance of [Error] with its [name] and [message], or
    any other value, kept as the text [String(value)] gives for it. *)
Inductive Thrown : Type :=
| ErrorObj (name message : string)
| NonError (text : string).

(** [new Error(message)] *)
Definition newError (message : string) : Thrown := ErrorObj "Error" message.

(** [error instanceof Error ? error.message : String(error)] *)
Definition errorMessage (error : Thrown) : string :=
  match error with
  | ErrorObj _ message => message
  | NonError text => text
  end.

(** [error instanceof Error && error.name === name] *)
Definition isErrorNamed (error : Thrown) (name : string) : bool :=
  match error with
  | ErrorObj n _ => n =? name
  | NonError _ => false
  end.

(** [value || fallback] on an optional string: [undefined] and the empty string
    are both falsy. *)
Definition orElse (value : option string) (fallback : string) : string :=
  match value with
  | Some s => if s =? "" then fallback else s
  | None => fallback
  end.

(** [!value] on an optional string. *)
Definition falsy (value : option string) : bool :=
  match value with
  | Some s => s =? ""
  | None => true
  end.

(** [value === literal] for an optional string against a string literal. *)
Definition strictEq (value : option string) (literal : string) : bool :=
  match value with
  | Some s => s =? literal
  | None => false
  end.

(** An optional string inside a template literal. *)
Definition interpolate (value : option string) : string :=
  match value with
  | Some s => s
  | None => "undefined"
  end.

(** [String.prototype.toLowerCase], on the ASCII letters. *)
Definition lowerAscii (c : ascii) : ascii :=
  let n := nat_of_ascii c in
  if (65 <=? n)%nat && (n <=? 90)%nat then ascii_of_nat (n + 32) else c.

Fixpoint toLowerCase (s : string) : string :=
  match s with
  | EmptyString => EmptyString
  | String c rest => String (lowerAscii c) (toLowerCase rest)
  end.

(** A non-negative integer inside a template literal. *)
Definition showN (n : N) : string := NilEmpty.string_of_uint (N.to_uint n).

Definition showNat (n : nat) : string := showN (N.of_nat n).

(** The text of [k / 1000] inside a template literal, for an integer [k]:
    the integer part, then the fraction digits without trailing zeros.  This
    is what the number-to-string conversion prints while [k < 10^15]: below
    that bound the product and the quotient are exact up to the rounding of a
    decimal of at most 15 significant digits, whose shortest round-trip
    representation is the decimal itself. *)
Definition fractionDigits (r : N) : string :=
  let a := (r / 100)%N in
  let b := ((r / 10) mod 10)%N in
  let c := (r mod 10)%N in
  if negb (c =? 0)%N then showN a ++ showN b ++ showN c
  else if negb (b =? 0)%N then showN a ++ showN b
  else showN a.

Definition showThousandths (k : N) : string :=
  let q := (k / 1000)%N in
  let r := (k mod 1000)%N in
  if (r =? 0)%N then showN q else showN q ++ "." ++ fractionDigits r.

(** Reading such a text back: the part before the decimal point and the part
    after it, if there is one. *)
Fixpoint splitAtPoint (s : string) : string * option string :=
  match s with
  | EmptyString => (EmptyString, None)
  | String c rest =>
      if (c =? ".")%char then (EmptyString, Some rest)
      else let (whole, fraction) := splitAtPoint rest in
           (String c whole, fraction)
  end.

(** Fraction digits completed to three. *)
Definition padThousandths (fraction : string) : string :=
  match fraction with
  | String a EmptyString => String a "00"
  | String a (String b EmptyString) => String a (String b "0")
  | _ => fraction
  end.

Definition readN (s : string) : option N :=
  option_map N.of_uint (NilEmpty.uint_of_string s).

(** The number of thousandths a decimal text denotes. *)
Definition readThousandths (s : string) : option N :=
  let (whole, fraction) := splitAtPoint s in
  match readN whole, fraction with
  | Some q, None => Some (q * 1000)%N
  | Some q, Some f =>
      match readN (padThousandths f) with
      | Some r => Some (q * 1000 + r)%N
      | None => None
      end
  | None, _ => None
  end.

(** [haystack.includes(needle)] *)
Fixpoint includes (haystack needle : string) : bool :=
  if prefix needle haystack then true
  else match haystack with
       | EmptyString => false
       | String _ rest => includes rest needle
       end.

(** ** Effects *)

Inductive Event : Type :=
| Info (message : string)                       (* core.info *)
| StartGroup (name : string)                    (* core.startGroup *)
| EndGroup                                      (* core.endGroup *)
| SetFailed (message : string)                  (* core.setFailed *)
| StatSync (path : string)                      (* fs.statSync *)
| ReadFileSync (path : string)                  (* fs.readFileSync *)
| PutObject (region : option string) (bucket key body : string)
| SendCommand (region : option string) (instanceId documentName : string)
              (commands : list string)
| GetCommandInvocation (commandId instanceId : string)
| Sleep (ms : N).                               (* setTimeout-based sleep *)

Inductive Outcome (A : Type) : Type :=
| Return (value : A)
| Throw (error : Thrown).
Arguments Return {A} value.
Arguments Throw {A} error.

(** A computation: the effects it performed, in order, and how it ended. *)
Definition M (A : Type) : Type := (list Event * Outcome A)%type.

Definition ret {A} (a : A) : M A := ([], Return a).

Definition throw {A} (error : Thrown) : M A := ([], Throw error).

Definition bind {A B} (m : M A) (k : A -> M B) : M B :=
  match m with
  | (t, Return a) => let (t', r) := k a in ((t ++ t')%list, r)
  | (t, Throw e) => (t, Throw e)
  end.

(** [try { m } catch (error) { handler error }] *)
Definition tryCatch {A} (m : M A) (handler : Thrown -> M A) : M A :=
  match m with
  | (t, Return a) => (t, Return a)
  | (t, Throw e) => let (t', r) := handler e in ((t ++ t')%list, r)
  end.

(** An effect with no result. *)
Definition emit (ev : Event) : M unit := ([ev], Return tt).

(** A call to the outside: the effect, then what the outside answered. *)
Definition call {A} (ev : Event) (answer : Thrown + A) : M A :=
  ([ev], match answer with inl e => Throw e | inr a => Return a end).

Declare Scope js_scope.
Delimit Scope js_scope with js.
Notation "x <- m ;; k" := (bind m (fun x => k))
  (at level 61, m at next level, right associativity) : js_scope.
Notation "m ;; k" := (bind m (fun _ => k))
  (at level 61, right associativity) : js_scope.
Open Scope js_scope.

Definition trace {A} (m : M A) : list Event := fst m.
Definition outcome {A} (m : M A) : Outcome A := snd m.

(** ** The interfaces of [types.ts] and of the AWS responses *)

Record ActionInputs : Type := {
  localPath : string;
  remotePath : string;
  instance : string;
  intermediateS3 : string;
  region : option string
}.

Record S3UploadResult : Type := {
  bucket : string;
  key : string;
  s3Uri : string
}.

Record SSMCommandResult : Type := {
  commandId : string;
  status : string;
  output : option string
}.

(** [SendCommandCommandOutput]: [Command] and its [CommandId] are optional. *)
Record Command : Type := { CommandId : option string }.
Record SendCommandCommandOutput : Type := { Command_ : option Command }.

(** [GetCommandInvocationCommandOutput], the fields the code reads. *)
Record Invocation : Type := {
  Status : option string;
  StandardOutputContent : option string;
  StandardErrorContent : option string
}.

(** ** The outside world *)

Record World : Type := {
  (* core.getInput: the trimmed value of an input, empty when not supplied *)
  inputValue : string -> string;
  (* fs.statSync(path): throws, or answers stats.isFile() *)
  stat : string -> Thrown + bool;
  (* fs.readFileSync(path): throws, or answers the content *)
  readFile : string -> Thrown + string;
  (* Date.now(), in milliseconds *)
  now : N;
  (* s3Client.send(PutObjectCommand) for a bucket, key and body *)
  putObject : string -> string -> string -> Thrown + unit;
  (* ssmClient.send(SendCommandCommand) for an instance and its commands *)
  sendCommand : string -> list string -> Thrown + SendCommandCommandOutput;
  (* ssmClient.send(GetCommandInvocationCommand): the answer to the n-th
     status query (from 1) for a command and instance *)
  getCommandInvocation : nat -> string -> string -> Thrown + Invocation
}.

(** ** [src/ssm-transfer.ts] *)

(** [sleep(ms)] *)
Definition sleep (ms : N) : M unit := emit (Sleep ms).

(** One iteration of the [for] loop of [waitForCommandCompletion]: [Some]
    result when the function returns from inside the loop, [None] when the
    loop goes on to the next attempt. *)
Definition pollOnce (w : World) (commandId instanceId : string)
    (maxAttempts : nat) (delayMs : N) (attempt : nat)
  : M (option SSMCommandResult) :=
  tryCatch
    (invocation <- call (GetCommandInvocation commandId instanceId)
                     (getCommandInvocation w attempt commandId instanceId) ;;
     let status := Status invocation in
     if strictEq status "Success" then
       emit (Info "SSM command completed successfully") ;;
       ret (Some {| commandId := commandId;
                    status := interpolate status;
                    output := Some (orElse (StandardOutputContent invocation) "") |})
     else if strictEq status "Failed" || strictEq status "Cancelled" then
       let errorOutput :=
         orElse (StandardErrorContent invocation) "No error output" in
       throw (newError ("SSM command " ++ toLowerCase (interpolate status)
                          ++ ": " ++ errorOutput))
     else if strictEq status "InProgress" || strictEq status "Pending"
             || strictEq status "Delayed" then
       emit (Info ("Attempt " ++ showNat attempt ++ "/" ++ showNat maxAttempts
                     ++ ": Command status is " ++ interpolate status)) ;;
       sleep delayMs ;;
       ret None
     else
       throw (newError ("Unexpected SSM command status: " ++ interpolate status)))
    (fun error =>
       if isErrorNamed error "InvocationDoesNotExist" then
         emit (Info ("Attempt " ++ showNat attempt ++ "/" ++ showNat maxAttempts
                       ++ ": Command invocation not yet available")) ;;
         sleep delayMs ;;
         ret None
       else throw error).

(** The loop [for (attempt = ...; attempt <= maxAttempts; attempt++)] with
    [remaining] iterations left, and the [throw] that follows it. *)
Fixpoint pollLoop (w : World) (commandId instanceId : string)
    (maxAttempts : nat) (delayMs : N) (remaining attempt : nat)
  : M SSMCommandResult :=
  match remaining with
  | O =>
      throw (newError ("SSM command did not complete within "
                         ++ showThousandths (N.of_nat maxAttempts * delayMs)
                         ++ " seconds"))
  | S remaining' =>
      r <- pollOnce w commandId instanceId maxAttempts delayMs attempt ;;
      match r with
      | Some result => ret result
      | None => pollLoop w commandId instanceId maxAttempts delayMs
                  remaining' (S attempt)
      end
  end.

Definition waitForCommandCompletion (w : World) (commandId instanceId : string)
    (maxAttempts : nat) (delayMs : N) : M SSMCommandResult :=
  emit (Info ("Waiting for SSM command " ++ commandId ++ " to complete...")) ;;
  pollLoop w commandId instanceId maxAttempts delayMs maxAttempts 1.

(** The default values of [maxAttempts] and [delayMs]. *)
Definition defaultMaxAttempts : nat := 60.
Definition defaultDelayMs : N := 2000.

(** [region ? { region } : {}]: the region a client is configured with. *)
Definition clientRegion (region : option string) : option string :=
  if falsy region then None else region.

(** The double-quote character of the [echo] command. *)
Definition dquote : string := String (ascii_of_nat 34) EmptyString.

(** The [commands] array of [transferFileViaSSM]. *)
Definition transferCommands (s3Uri remotePath : string) : list string :=
  [ "mkdir -p $(dirname " ++ remotePath ++ ")";
    "aws s3 cp " ++ s3Uri ++ " " ++ remotePath;
    "echo " ++ dquote ++ "File transferred successfully to " ++ remotePath
      ++ dquote ].

(** [response.Command?.CommandId] *)
Definition responseCommandId (response : SendCommandCommandOutput)
  : option string :=
  match Command_ response with
  | Some c => CommandId c
  | None => None
  end.

Definition transferFileViaSSM (w : World) (instanceId : string)
    (s3Result : S3UploadResult) (remotePath : string) (region : option string)
  : M SSMCommandResult :=
  let commands := transferCommands (s3Uri s3Result) remotePath in
  emit (Info ("Executing SSM command on instance " ++ instanceId
                ++ " to download file from " ++ s3Uri s3Result)) ;;
  tryCatch
    (response <- call (SendCommand (clientRegion region) instanceId
                         "AWS-RunShellScript" commands)
                   (sendCommand w instanceId commands) ;;
     if falsy (responseCommandId response) then
       throw (newError "SSM command was sent but no CommandId was returned")
     else
       let commandId := interpolate (responseCommandId response) in
       emit (Info ("SSM Command sent with ID: " ++ commandId)) ;;
       result <- waitForCommandCompletion w commandId instanceId
                   defaultMaxAttempts defaultDelayMs ;;
       ret result)
    (fun error =>
       throw (newError ("Failed to transfer file via SSM: "
                          ++ errorMessage error))).

(** ** [src/s3-upload.ts] *)

(** [bucketName.replace(/^s3:\/\//, "")] *)
Definition stripS3Scheme (bucketName : string) : string :=
  match bucketName with
  | String "s" (String "3" (String ":" (String "/" (String "/" rest)))) => rest
  | _ => bucketName
  end.

Definition isSlash (c : ascii) : bool := (c =? "/")%char.

Fixpoint dropSlashes (l : list ascii) : list ascii :=
  match l with
  | c :: rest => if isSlash c then dropSlashes rest else l
  | [] => []
  end.

Fixpoint takeToSlash (l : list ascii) : list ascii :=
  match l with
  | c :: rest => if isSlash c then [] else c :: takeToSlash rest
  | [] => []
  end.

(** [basename(path)] of Node's [path] module on a POSIX runner: scanning from
    the end, the separators that end the path are skipped, and the result is
    the run of characters before them up to the previous separator. *)
Definition basename (path : string) : string :=
  string_of_list_ascii
    (rev (takeToSlash (dropSlashes (rev (list_ascii_of_string path))))).

(** The key of the staged object, for the value [Date.now()] gave. *)
Definition stagingKey (timestamp : N) (localPath : string) : string :=
  "github-actions-transfer/" ++ showN timestamp ++ "-" ++ basename localPath.

Definition uploadFileToS3 (w : World) (localPath bucketName : string)
    (region : option string) : M S3UploadResult :=
  let bucket := stripS3Scheme bucketName in
  tryCatch
    (isFile <- call (StatSync localPath) (stat w localPath) ;;
     if negb isFile then throw (newError (localPath ++ " is not a file"))
     else ret tt)
    (fun error =>
       throw (newError ("Cannot access local file: " ++ localPath ++ ". "
                          ++ errorMessage error))) ;;
  let timestamp := now w in
  let key := stagingKey timestamp localPath in
  emit (Info ("Uploading " ++ localPath ++ " to s3://" ++ bucket ++ "/" ++ key)) ;;
  tryCatch
    (fileContent <- call (ReadFileSync localPath) (readFile w localPath) ;;
     call (PutObject (clientRegion region) bucket key fileContent)
       (putObject w bucket key fileContent) ;;
     let s3Uri := "s3://" ++ bucket ++ "/" ++ key in
     emit (Info ("Successfully uploaded file to " ++ s3Uri)) ;;
     ret {| bucket := bucket; key := key; s3Uri := s3Uri |})
    (fun error =>
       throw (newError ("Failed to upload file to S3: " ++ errorMessage error))).

(** ** The action entry point *)

(** [core.getInput(name, { required })] of the actions toolkit: the trimmed
    value, and an [Error] when a required input is empty. *)
Definition getInput (w : World) (name : string) (required : bool) : M string :=
  let val := inputValue w name in
  if required && (val =? "") then
    throw (newError ("Input required and not supplied: " ++ name))
  else ret val.

Definition getInputs (w : World) : M ActionInputs :=
  localPath <- getInput w "local-path" true ;;
  remotePath <- getInput w "remote-path" true ;;
  instance <- getInput w "instance" true ;;
  intermediateS3 <- getInput w "intermediate-s3" true ;;
  region <- getInput w "region" false ;;
  ret {| localPath := localPath;
         remotePath := remotePath;
         instance := instance;
         intermediateS3 := intermediateS3;
         region := if region =? "" then None else Some region |}.

(** The body of the [try] block of [run], from the upload on. *)
Definition runStages (w : World) (inputs : ActionInputs) : M unit :=
  emit (StartGroup "Uploading file to S3") ;;
  s3Result <- uploadFileToS3 w (localPath inputs) (intermediateS3 inputs)
                (region inputs) ;;
  emit EndGroup ;;
  emit (StartGroup "Transferring file to EC2 instance via SSM") ;;
  transferFileViaSSM w (instance inputs) s3Result (remotePath inputs)
    (region inputs) ;;
  emit EndGroup ;;
  emit (Info "File transfer completed successfully!").

(** The [catch] block of [run]. *)
Definition runCatch (error : Thrown) : M unit :=
  match error with
  | ErrorObj _ message => emit (SetFailed message)
  | NonError _ => emit (SetFailed "An unknown error occurred")
  end.

Definition run (w : World) : M unit :=
  tryCatch
    (emit (Info "Starting file transfer to EC2 instance via S3 and SSM") ;;
     inputs <- getInputs w ;;
     emit (Info ("Local path: " ++ localPath inputs)) ;;
     emit (Info ("Remote path: " ++ remotePath inputs)) ;;
     emit (Info ("Instance ID: " ++ instance inputs)) ;;
     emit (Info ("S3 bucket: " ++ intermediateS3 inputs)) ;;
     (if falsy (region inputs) then ret tt
      else emit (Info ("AWS Region: " ++ interpolate (region inputs)))) ;;
     runStages w inputs)
    runCatch.

(** ** Observations on a trace *)

Definition isQuery (ev : Event) : bool :=
  match ev with GetCommandInvocation _ _ => true | _ => false end.

Definition isSleep (ev : Event) : bool :=
  match ev with Sleep _ => true | _ => false end.

Definition isPut (ev : Event) : bool :=
  match ev with PutObject _ _ _ _ => true | _ => false end.

Definition isSend (ev : Event) : bool :=
  match ev with SendCommand _ _ _ _ => true | _ => false end.

Definition isSetFailed (ev : Event) : bool :=
  match ev with SetFailed _ => true | _ => false end.

(** How many status queries, inter-poll delays, puts and submissions a trace
    holds. *)
Definition queries (t : list Event) : nat := length (filter isQuery t).
Definition delays (t : list Event) : nat := length (filter isSleep t).
Definition puts (t : list Event) : nat := length (filter isPut t).
Definition submissions (t : list Event) : nat := length (filter isSend t).

(** The messages handed to [core.setFailed], in order. *)
Fixpoint failures (t : list Event) : list string :=
  match t with
  | SetFailed message :: rest => message :: failures rest
  | _ :: rest => failures rest
  | [] => []
  end.

(** ** Classifying the answer to a status query *)

(** The query failed with the error named [InvocationDoesNotExist]. *)
Definition notYetVisible (answer : Thrown + Invocation) : bool :=
  match answer with
  | inl error => isErrorNamed error "InvocationDoesNotExist"
  | inr _ => false
  end.

(** The query answered with exactly this status. *)
Definition reports (answer : Thrown + Invocation) (literal : string) : bool :=
  match answer with
  | inl _ => false
  | inr invocation => strictEq (Status invocation) literal
  end.

Definition nonTerminal (answer : Thrown + Invocation) : bool :=
  reports answer "Pending" || reports answer "Delayed"
  || reports answer "InProgress".

(** The answers after which the loop sleeps and polls again. *)
Definition retried (answer : Thrown + Invocation) : bool :=
  notYetVisible answer || nonTerminal answer.

(** The six statuses the loop knows. *)
Definition knownStatus (s : string) : bool :=
  (s =? "Pending") || (s =? "Delayed") || (s =? "InProgress")
  || (s =? "Success") || (s =? "Failed") || (s =? "Cancelled").

(** ** Scripted worlds *)

Definition invocationMissing : Thrown + Invocation :=
  inl (ErrorObj "InvocationDoesNotExist" "Invocation does not exist").

Definition answering (s : string) (out err : option string)
  : Thrown + Invocation :=
  inr {| Status := Some s;
         StandardOutputContent := out;
         StandardErrorContent := err |}.

Definition demoInput (name : string) : string :=
  if name =? "local-path" then "build/app.tar"
  else if name =? "remote-path" then "/opt/app/app.tar"
  else if name =? "instance" then "i-1234567890abcdef0"
  else if name =? "intermediate-s3" then "s3://my-bucket"
  else "".

(** A world where the file is there, the put and the submission succeed, and
    the status queries are answered from [script], then by [beyond]. *)
Definition scriptedWorld (script : list (Thrown + Invocation))
    (beyond : Thrown + Invocation) : World :=
  {| inputValue := demoInput;
     stat := fun _ => inr true;
     readFile := fun _ => inr "content";
     now := 1700000000000;
     putObject := fun _ _ _ => inr tt;
     sendCommand := fun _ _ =>
       inr {| Command_ := Some {| CommandId := Some "cmd-1" |} |};
     getCommandInvocation := fun n _ _ => nth (n - 1) script beyond |}.

Definition withStat (answer : string -> Thrown + bool) (w : World) : World :=
  {| inputValue := inputValue w; stat := answer; readFile := readFile w;
     now := now w; putObject := putObject w; sendCommand := sendCommand w;
     getCommandInvocation := getCommandInvocation w |}.

Definition withReadFile (answer : string -> Thrown + string) (w : World)
  : World :=
  {| inputValue := inputValue w; stat := stat w; readFile := answer;
     now := now w; putObject := putObject w; sendCommand := sendCommand w;
     getCommandInvocation := getCommandInvocation w |}.

Definition withNow (t : N) (w : World) : World :=
  {| inputValue := inputValue w; stat := stat w; readFile := readFile w;
     now := t; putObject := putObject w; sendCommand := sendCommand w;
     getCommandInvocation := getCommandInvocation w |}.

Definition withPutObject (answer : string -> string -> string -> Thrown + unit)
    (w : World) : World :=
  {| inputValue := inputValue w; stat := stat w; readFile := readFile w;
     now := now w; putObject := answer; sendCommand := sendCommand w;
     getCommandInvocation := getCommandInvocation w |}.

Definition withSendCommand
    (answer : string -> list string -> Thrown + SendCommandCommandOutput)
    (w : World) : World :=
  {| inputValue := inputValue w; stat := stat w; readFile := readFile w;
     now := now w; putObject := putObject w; sendCommand := answer;
     getCommandInvocation := getCommandInvocation w |}.

(** The polling script of the first scenario. *)
Definition visibleThenSuccess : World :=
  scriptedWorld
    [ invocationMissing;
      answering "Pending" None None;
      answering "InProgress" None None;
      answering "Success" (Some "ok") None ]
    (answering "Success" (Some "late") None).

(** The command never leaves [InProgress]. *)
Definition foreverInProgress : World :=
  scriptedWorld [] (answering "InProgress" None None).

(** The first poll reports a failure with its standard error. *)
Definition diskFull : World :=
  scriptedWorld [ answering "Failed" None (Some "disk full") ]
    (answering "Success" None None).

(** The same report with the status in capitals. *)
Definition diskFullUpperCase : World :=
  scriptedWorld [ answering "FAILED" None (Some "disk full") ]
    (answering "Success" None None).

(** The first poll reports a status the loop does not know. *)
Definition throttled : World :=
  scriptedWorld [ answering "Throttled" None None ]
    (answering "Success" None None).

(** The first poll reports success. *)
Definition successAtOnce : World :=
  scriptedWorld [] (answering "Success" (Some "ok") None).

(** The log line of an attempt that goes on to the next one. *)
Definition retryLine (maxAttempts attempt : nat) (a : Thrown + Invocation)
  : string :=
  "Attempt " ++ showNat attempt ++ "/" ++ showNat maxAttempts ++
  match a with
  | inl _ => ": Command invocation not yet available"
  | inr invocation => ": Command status is " ++ interpolate (Status invocation)
  end.

(** ** Shapes of paths and traces used in the statements *)

(** A string made of path separators only. *)
Fixpoint onlySlashes (s : string) : bool :=
  match s with
  | EmptyString => true
  | String c rest => isSlash c && onlySlashes rest
  end.

(** A check holds for every number below a bound. *)
Fixpoint allBelow (check : N -> bool) (bound : nat) : bool :=
  match bound with
  | O => true
  | S m => check (N.of_nat m) && allBelow check m
  end.

(** Reading the fraction digits of [r] thousandths gives [r] back. *)
Definition fractionReadsBack (r : N) : bool :=
  match readN (padThousandths (fractionDigits r)) with
  | Some r' => (r' =? r)%N
  | None => false
  end.

(** The log lines [run] writes before the first stage. *)
Definition runHeader (inputs : ActionInputs) : list Event :=
  [ Info "Starting file transfer to EC2 instance via S3 and SSM";
    Info ("Local path: " ++ localPath inputs);
    Info ("Remote path: " ++ remotePath inputs);
    Info ("Instance ID: " ++ instance inputs);
    Info ("S3 bucket: " ++ intermediateS3 inputs) ]
  ++ (if falsy (region inputs) then []
      else [ Info ("AWS Region: " ++ interpolate (region inputs)) ]).

(** ** Further observations and worlds *)

(** The effects the polling loop is allowed: log lines, status queries for
    this command on this instance, and sleeps of the fixed delay. *)
Definition pollerEvent (cid iid : string) (delayMs : N) (ev : Event) : bool :=
  match ev with
  | Info _ => true
  | GetCommandInvocation c i => (c =? cid) && (i =? iid)
  | Sleep ms => (ms =? delayMs)%N
  | _ => false
  end.

(** The time spent sleeping, in milliseconds. *)
Fixpoint slept (t : list Event) : N :=
  match t with
  | Sleep ms :: rest => (ms + slept rest)%N
  | _ :: rest => slept rest
  | [] => 0%N
  end.

Definition isFileSystem (ev : Event) : bool :=
  match ev with StatSync _ | ReadFileSync _ => true | _ => false end.

(** How many file-system calls a trace holds. *)
Definition fileCalls (t : list Event) : nat := length (filter isFileSystem t).


(** The status query is refused on the second poll. *)
Definition accessDenied : World :=
  scriptedWorld
    [ answering "Pending" None None;
      inl (ErrorObj "AccessDeniedException" "not authorized") ]
    (answering "Success" None None).

(** The command succeeds on the third poll, with no captured output. *)
Definition successAtThird : World :=
  scriptedWorld
    [ invocationMissing; answering "InProgress" None None ]
    (answering "Success" None None).

(** The invocation never becomes visible. *)
Definition neverVisible : World := scriptedWorld [] invocationMissing.

(** The blob store refuses the put. *)
Definition putDenied : World :=
  withPutObject (fun _ _ _ => inl (newError "Access Denied")) successAtOnce.

(** The submission call is refused. *)
Definition sendDenied : World :=
  withSendCommand (fun _ _ => inl (newError "InvalidInstanceId"))
    successAtOnce.


(** * The model at work *)

Example basename_nested : basename "/srv/build/app.tar" = "app.tar".
Proof. reflexivity. Qed.

Example basename_trailing_separators : basename "build/out//" = "out".
Proof. reflexivity. Qed.

Example basename_root : basename "/" = "".
Proof. reflexivity. Qed.

Example stripS3Scheme_qualified : stripS3Scheme "s3://my-bucket" = "my-bucket".
Proof. reflexivity. Qed.

Example stripS3Scheme_bare : stripS3Scheme "my-bucket" = "my-bucket".
Proof. reflexivity. Qed.

Example toLowerCase_status : toLowerCase "Cancelled" = "cancelled".
Proof. reflexivity. Qed.

Example showThousandths_default_budget :
  showThousandths (N.of_nat defaultMaxAttempts * defaultDelayMs) = "120".
Proof. reflexivity. Qed.

Example showThousandths_fraction : showThousandths 1050 = "1.05".
Proof. reflexivity. Qed.

Example upload_names_the_object :
  outcome (uploadFileToS3 successAtOnce "build/app.tar" "s3://my-bucket" None)
  = Return {| bucket := "my-bucket";
              key := "github-actions-transfer/1700000000000-app.tar";
              s3Uri :=
                "s3://my-bucket/github-actions-transfer/1700000000000-app.tar"
           |}.
Proof. reflexivity. Qed.

Example transfer_default_budget :
  outcome (transferFileViaSSM foreverInProgress "i-1234567890abcdef0"
             {| bucket := "my-bucket"; key := "k"; s3Uri := "s3://my-bucket/k" |}
             "/opt/app/app.tar" None)
  = Throw (newError "Failed to transfer file via SSM: SSM command did not complete within 120 seconds").
Proof. vm_compute. reflexivity. Qed.

Example run_not_a_file :
  failures (trace (run (withStat (fun _ => inr false) successAtOnce)))
  = [ "Cannot access local file: build/app.tar. build/app.tar is not a file" ].
Proof. reflexivity. Qed.

(** * The completion poller *)

Lemma queries_app (t t' : list Event) :
  queries (t ++ t') = queries t + queries t'.
Proof. unfold queries. now rewrite filter_app, length_app. Qed.

Lemma delays_app (t t' : list Event) :
  delays (t ++ t') = delays t + delays t'.
Proof. unfold delays. now rewrite filter_app, length_app. Qed.

Lemma failures_app (t t' : list Event) :
  failures (t ++ t') = (failures t ++ failures t')%list.
Proof.
  induction t as [|ev t IH]; [reflexivity|].
  destruct ev; simpl; rewrite IH; reflexivity.
Qed.

Section Poller.

Variable w : World.
Variables cid iid : string.
Variable maxAttempts : nat.
Variable delayMs : N.

Let answer (attempt : nat) : Thrown + Invocation :=
  getCommandInvocation w attempt cid iid.

Let query : Event := GetCommandInvocation cid iid.

(** A retried answer costs one query and one delay, whether the invocation
    was not yet visible or the command was still running. *)
Lemma pollOnce_retried (attempt : nat) :
  retried (answer attempt) = true ->
  pollOnce w cid iid maxAttempts delayMs attempt =
  ([query; Info (retryLine maxAttempts attempt (answer attempt));
    Sleep delayMs],
   Return None).
Proof.
  unfold retried, notYetVisible, nonTerminal, reports, pollOnce, retryLine.
  subst answer query; cbv beta.
  destruct (getCommandInvocation w attempt cid iid)
    as [error | invocation]; cbn [call bind tryCatch fst snd orb].
  - rewrite orb_false_r. intros ->. reflexivity.
  - destruct (Status invocation) as [s|]; cbn [strictEq orb]; [|discriminate].
    intros H.
    destruct (String.eqb_spec s "Success") as [->|_];
      [vm_compute in H; discriminate|].
    destruct (String.eqb_spec s "Failed") as [->|_];
      [vm_compute in H; discriminate|].
    destruct (String.eqb_spec s "Cancelled") as [->|_];
      [vm_compute in H; discriminate|].
    cbn [orb].
    replace ((s =? "InProgress") || (s =? "Pending") || (s =? "Delayed"))
      with true
      by (destruct (s =? "Pending"), (s =? "Delayed"), (s =? "InProgress");
          simpl in *; congruence).
    reflexivity.
Qed.

Lemma pollOnce_success (attempt : nat) (invocation : Invocation) :
  answer attempt = inr invocation ->
  Status invocation = Some "Success" ->
  pollOnce w cid iid maxAttempts delayMs attempt =
  ([query; Info "SSM command completed successfully"],
   Return (Some {| commandId := cid;
                   status := "Success";
                   output := Some (orElse (StandardOutputContent invocation)
                                     "") |})).
Proof.
  subst answer query; cbv beta. intros Ha Hs.
  unfold pollOnce. rewrite Ha. cbn [call bind]. rewrite Hs. reflexivity.
Qed.

Lemma pollOnce_failed (attempt : nat) (invocation : Invocation) (s : string) :
  answer attempt = inr invocation ->
  Status invocation = Some s ->
  s = "Failed" \/ s = "Cancelled" ->
  pollOnce w cid iid maxAttempts delayMs attempt =
  ([query],
   Throw (newError ("SSM command " ++ toLowerCase s ++ ": "
                      ++ orElse (StandardErrorContent invocation)
                           "No error output"))).
Proof.
  subst answer query; cbv beta. intros Ha Hs Hcase.
  unfold pollOnce. rewrite Ha. cbn [call bind]. rewrite Hs.
  destruct Hcase as [-> | ->]; reflexivity.
Qed.

Lemma pollOnce_unexpected (attempt : nat) (invocation : Invocation) :
  answer attempt = inr invocation ->
  match Status invocation with
  | Some s => knownStatus s = false
  | None => True
  end ->
  pollOnce w cid iid maxAttempts delayMs attempt =
  ([query],
   Throw (newError ("Unexpected SSM command status: "
                      ++ interpolate (Status invocation)))).
Proof.
  subst answer query; cbv beta. intros Ha Hs.
  unfold pollOnce. rewrite Ha. cbn [call bind].
  destruct (Status invocation) as [s|]; [|reflexivity].
  unfold knownStatus in Hs. cbn [strictEq].
  destruct (s =? "Pending"), (s =? "Delayed"), (s =? "InProgress"),
    (s =? "Success"), (s =? "Failed"), (s =? "Cancelled");
    try discriminate Hs.
  reflexivity.
Qed.

(** Any other error of the status query leaves the loop at once. *)
Lemma pollOnce_error (attempt : nat) (error : Thrown) :
  answer attempt = inl error ->
  isErrorNamed error "InvocationDoesNotExist" = false ->
  pollOnce w cid iid maxAttempts delayMs attempt =
  ([query], Throw error).
Proof.
  subst answer query; cbv beta. intros Ha Hn.
  unfold pollOnce. rewrite Ha. cbn [call bind tryCatch]. rewrite Hn.
  reflexivity.
Qed.

(** While the answers are retried ones, the loop goes on: [k] of them cost
    [k] queries and [k] delays, and the loop continues with the attempt that
    follows them. *)
Lemma pollLoop_retried (k : nat) :
  forall remaining attempt,
  (forall j, attempt <= j < attempt + k -> retried (answer j) = true) ->
  exists t,
    pollLoop w cid iid maxAttempts delayMs (k + remaining) attempt =
    ((t ++ trace (pollLoop w cid iid maxAttempts delayMs remaining
                    (attempt + k)))%list,
     outcome (pollLoop w cid iid maxAttempts delayMs remaining (attempt + k)))
    /\ queries t = k /\ delays t = k.
Proof.
  induction k as [|k IH]; intros remaining attempt Hretried.
  - exists []. rewrite Nat.add_0_r. cbn [plus app].
    destruct (pollLoop w cid iid maxAttempts delayMs remaining attempt).
    auto.
  - destruct (IH remaining (S attempt)) as (t & Hloop & Hq & Hd).
    { intros j Hj. apply Hretried. lia. }
    exists ([query; Info (retryLine maxAttempts attempt (answer attempt));
             Sleep delayMs] ++ t)%list.
    replace (attempt + S k) with (S attempt + k) by lia.
    cbn [plus pollLoop].
    rewrite pollOnce_retried by (apply Hretried; lia).
    cbn [bind]. rewrite Hloop. cbn [app].
    repeat split.
    + subst query. unfold queries in *. cbn. now rewrite Hq.
    + subst query. unfold delays in *. cbn. now rewrite Hd.
Qed.

(** The first answer that makes an iteration throw ends the loop with that
    error: nothing is queried and no delay is taken after it. *)
Lemma pollLoop_throws_at (k remaining attempt : nat) (tk : list Event)
    (error : Thrown) :
  (forall j, attempt <= j < attempt + k -> retried (answer j) = true) ->
  pollOnce w cid iid maxAttempts delayMs (attempt + k) = (tk, Throw error) ->
  exists t,
    pollLoop w cid iid maxAttempts delayMs (k + S remaining) attempt =
    ((t ++ tk)%list, Throw error)
    /\ queries t = k /\ delays t = k.
Proof.
  intros Hretried Hstep.
  destruct (pollLoop_retried k (S remaining) attempt Hretried)
    as (t & Hloop & Hq & Hd).
  exists t. rewrite Hloop. cbn [pollLoop]. rewrite Hstep. cbn [bind].
  auto.
Qed.

(** [waitForCommandCompletion] logs one line and enters the loop. *)
Lemma wait_unfold :
  waitForCommandCompletion w cid iid maxAttempts delayMs =
  (Info ("Waiting for SSM command " ++ cid ++ " to complete...")
     :: trace (pollLoop w cid iid maxAttempts delayMs maxAttempts 1),
   outcome (pollLoop w cid iid maxAttempts delayMs maxAttempts 1)).
Proof.
  unfold waitForCommandCompletion. cbn [emit bind].
  destruct (pollLoop w cid iid maxAttempts delayMs maxAttempts 1).
  reflexivity.
Qed.

(** A throwing answer at attempt [k], after [k - 1] retried ones. *)
Lemma wait_throws_at (k : nat) (tk : list Event) (error : Thrown) :
  1 <= k <= maxAttempts ->
  (forall j, 1 <= j < k -> retried (answer j) = true) ->
  pollOnce w cid iid maxAttempts delayMs k = (tk, Throw error) ->
  exists t,
    waitForCommandCompletion w cid iid maxAttempts delayMs =
    ((t ++ tk)%list, Throw error)
    /\ queries t = k - 1 /\ delays t = k - 1.
Proof.
  intros Hk Hretried Hstep.
  destruct (pollLoop_throws_at (k - 1) (maxAttempts - k) 1 tk error)
    as (t & Hloop & Hq & Hd).
  { intros j Hj. apply Hretried. lia. }
  { replace (1 + (k - 1)) with k by lia. exact Hstep. }
  replace (k - 1 + S (maxAttempts - k)) with maxAttempts in Hloop by lia.
  exists (Info ("Waiting for SSM command " ++ cid ++ " to complete...") :: t).
  rewrite wait_unfold, Hloop. cbn [trace outcome fst snd app].
  repeat split; [exact Hq | exact Hd].
Qed.

End Poller.

(** ** The text of the time budget *)

Lemma allBelow_spec (check : N -> bool) (bound : nat) :
  allBelow check bound = true ->
  forall m, m < bound -> check (N.of_nat m) = true.
Proof.
  induction bound as [|b IH]; cbn [allBelow]; intros H m Hm; [lia|].
  apply andb_true_iff in H as [Hb Hrest].
  destruct (Nat.eq_dec m b) as [-> | Hne]; [exact Hb|].
  apply IH; [exact Hrest | lia].
Qed.

Lemma readN_showN (n : N) : readN (showN n) = Some n.
Proof.
  unfold readN, showN. rewrite NilEmpty.usu. cbn [option_map].
  now rewrite Unsigned.of_to.
Qed.

Lemma showN_no_point (n : N) : ~ In "."%char (list_ascii_of_string (showN n)).
Proof.
  unfold showN. generalize (N.to_uint n) as d.
  induction d as [|d IH|d IH|d IH|d IH|d IH|d IH|d IH|d IH|d IH|d IH];
    cbn [NilEmpty.string_of_uint list_ascii_of_string In];
    try tauto; intros [Heq | Hin]; try discriminate Heq; tauto.
Qed.

Lemma splitAtPoint_whole (whole : string) :
  ~ In "."%char (list_ascii_of_string whole) ->
  splitAtPoint whole = (whole, None).
Proof.
  induction whole as [|c whole IH]; cbn [splitAtPoint list_ascii_of_string In];
    intros H; [reflexivity|].
  destruct (Ascii.eqb_spec c ".") as [-> | _]; [exfalso; apply H; now left|].
  rewrite IH by tauto. reflexivity.
Qed.

Lemma splitAtPoint_fraction (whole fraction : string) :
  ~ In "."%char (list_ascii_of_string whole) ->
  splitAtPoint (whole ++ "." ++ fraction) = (whole, Some fraction).
Proof.
  change ("." ++ fraction) with (String "."%char fraction).
  induction whole as [|c whole IH];
    cbn [splitAtPoint list_ascii_of_string In append]; intros H;
    [reflexivity|].
  destruct (Ascii.eqb_spec c ".") as [-> | _]; [exfalso; apply H; now left|].
  rewrite IH by tauto. reflexivity.
Qed.

Lemma fractionDigits_read (r : N) :
  (r < 1000)%N -> readN (padThousandths (fractionDigits r)) = Some r.
Proof.
  intros Hr.
  assert (Hall : allBelow fractionReadsBack 1000 = true)
    by (vm_compute; reflexivity).
  assert (Hcheck := allBelow_spec _ _ Hall (N.to_nat r)).
  rewrite N2Nat.id in Hcheck. specialize (Hcheck ltac:(lia)).
  unfold fractionReadsBack in Hcheck.
  destruct (readN (padThousandths (fractionDigits r))) as [r'|];
    [|discriminate].
  apply N.eqb_eq in Hcheck. now subst.
Qed.

(** The text printed for [k / 1000] denotes [k] thousandths. *)
Lemma showThousandths_read (k : N) :
  readThousandths (showThousandths k) = Some k.
Proof.
  unfold showThousandths, readThousandths.
  assert (Hk := N.div_mod k 1000 ltac:(discriminate)).
  assert (Hr : (k mod 1000 < 1000)%N) by (apply N.mod_lt; discriminate).
  destruct (N.eqb_spec (k mod 1000) 0) as [H0 | Hpos].
  - rewrite splitAtPoint_whole by apply showN_no_point.
    rewrite readN_showN. f_equal. lia.
  - rewrite splitAtPoint_fraction by apply showN_no_point.
    rewrite readN_showN, fractionDigits_read by exact Hr.
    f_equal. lia.
Qed.

(** Whole seconds are printed without a fraction. *)
Lemma showThousandths_whole (seconds : N) :
  showThousandths (1000 * seconds) = showN seconds.
Proof.
  unfold showThousandths.
  replace ((1000 * seconds) mod 1000)%N with 0%N
    by (symmetry; rewrite N.mul_comm; apply N.Div0.mod_mul).
  cbn [N.eqb]. f_equal.
  rewrite N.mul_comm. apply N.div_mul. discriminate.
Qed.

(** C1.  When the first status query finds the invocation not yet visible and
    the next three report Pending, InProgress and Success with standard output
    "ok", [waitForCommandCompletion] with at least four attempts returns the
    result with status Success and output "ok" after exactly 4 status queries
    and 3 delays.  The trace shows that the poll that found nothing costs a
    query, a log line and a delay of [delayMs], as the two running polls do. *)
Theorem wait_visible_then_success :
  forall (w : World) (cid iid : string) (maxAttempts : nat) (delayMs : N)
         (e : Thrown) (i2 i3 i4 : Invocation),
  4 <= maxAttempts ->
  getCommandInvocation w 1 cid iid = inl e ->
  isErrorNamed e "InvocationDoesNotExist" = true ->
  getCommandInvocation w 2 cid iid = inr i2 -> Status i2 = Some "Pending" ->
  getCommandInvocation w 3 cid iid = inr i3 -> Status i3 = Some "InProgress" ->
  getCommandInvocation w 4 cid iid = inr i4 -> Status i4 = Some "Success" ->
  StandardOutputContent i4 = Some "ok" ->
  let r := waitForCommandCompletion w cid iid maxAttempts delayMs in
  let query := GetCommandInvocation cid iid in
  let line n a := Info (retryLine maxAttempts n a) in
  outcome r = Return {| commandId := cid; status := "Success";
                        output := Some "ok" |}
  /\ queries (trace r) = 4
  /\ delays (trace r) = 3
  /\ trace r =
     [ Info ("Waiting for SSM command " ++ cid ++ " to complete...");
       query; line 1 (inl e); Sleep delayMs;
       query; line 2 (inr i2); Sleep delayMs;
       query; line 3 (inr i3); Sleep delayMs;
       query; Info "SSM command completed successfully" ].
Proof.
  intros w cid iid maxAttempts delayMs e i2 i3 i4 Hmax H1 He H2 Hs2 H3 Hs3
    H4 Hs4 Hout r query line.
  assert (Hr : r =
    ([ Info ("Waiting for SSM command " ++ cid ++ " to complete...");
       query; line 1 (inl e); Sleep delayMs;
       query; line 2 (inr i2); Sleep delayMs;
       query; line 3 (inr i3); Sleep delayMs;
       query; Info "SSM command completed successfully" ],
     Return {| commandId := cid; status := "Success"; output := Some "ok" |})).
  { subst r query line.
    destruct maxAttempts as [|[|[|[|m]]]]; try lia.
    unfold waitForCommandCompletion. cbn [pollLoop].
    rewrite pollOnce_retried
      by (unfold retried, notYetVisible; rewrite H1, He; reflexivity).
    rewrite pollOnce_retried
      by (unfold retried, nonTerminal, reports; rewrite H2, Hs2; reflexivity).
    rewrite pollOnce_retried
      by (unfold retried, nonTerminal, reports; rewrite H3, Hs3; reflexivity).
    rewrite (pollOnce_success _ _ _ _ _ _ _ H4 Hs4).
    rewrite H1, H2, H3, Hout. reflexivity. }
  rewrite Hr. cbn [outcome trace fst snd]. repeat split.
Qed.

Lemma wait_visible_then_success_witness :
  4 <= 4
  /\ outcome (waitForCommandCompletion visibleThenSuccess "cmd-1" "i-1" 4 2000)
     = Return {| commandId := "cmd-1"; status := "Success";
                 output := Some "ok" |}
  /\ queries (trace (waitForCommandCompletion visibleThenSuccess "cmd-1" "i-1"
                       4 2000)) = 4
  /\ delays (trace (waitForCommandCompletion visibleThenSuccess "cmd-1" "i-1"
                      4 2000)) = 3.
Proof.
  split; [lia|].
  destruct (wait_visible_then_success visibleThenSuccess "cmd-1" "i-1" 4 2000
              (ErrorObj "InvocationDoesNotExist" "Invocation does not exist")
              {| Status := Some "Pending"; StandardOutputContent := None;
                 StandardErrorContent := None |}
              {| Status := Some "InProgress"; StandardOutputContent := None;
                 StandardErrorContent := None |}
              {| Status := Some "Success"; StandardOutputContent := Some "ok";
                 StandardErrorContent := None |})
    as (Ho & Hq & Hd & _);
    try reflexivity; try lia.
  repeat split; assumption.
Defined.

(** C2.  While every one of the [maxAttempts] status queries reports Pending,
    Delayed or InProgress, [waitForCommandCompletion] performs exactly
    [maxAttempts] queries (each followed by its delay) and then throws the
    error "SSM command did not complete within <budget> seconds"; the queries
    of the trace are all there are.  The budget printed is
    [maxAttempts * delayMs / 1000]: read back as a decimal, it is
    [maxAttempts * delayMs] thousandths.  The product is taken below [10^15],
    where the text of the quotient is the decimal it denotes. *)
Theorem wait_times_out :
  forall (w : World) (cid iid : string) (maxAttempts : nat) (delayMs : N),
  1 <= maxAttempts ->
  (N.of_nat maxAttempts * delayMs < 10 ^ 15)%N ->
  (forall j, 1 <= j <= maxAttempts ->
             nonTerminal (getCommandInvocation w j cid iid) = true) ->
  let r := waitForCommandCompletion w cid iid maxAttempts delayMs in
  outcome r =
    Throw (newError ("SSM command did not complete within "
                       ++ showThousandths (N.of_nat maxAttempts * delayMs)
                       ++ " seconds"))
  /\ readThousandths (showThousandths (N.of_nat maxAttempts * delayMs))
     = Some (N.of_nat maxAttempts * delayMs)%N
  /\ queries (trace r) = maxAttempts
  /\ delays (trace r) = maxAttempts.
Proof.
  intros w cid iid maxAttempts delayMs _ _ Hrunning r. subst r.
  destruct (pollLoop_retried w cid iid maxAttempts delayMs maxAttempts 0 1)
    as (t & Hloop & Hq & Hd).
  { intros j Hj. unfold retried. rewrite Hrunning by lia.
    apply orb_true_r. }
  rewrite Nat.add_0_r in Hloop.
  rewrite wait_unfold, Hloop.
  cbn [pollLoop throw trace outcome fst snd].
  rewrite app_nil_r.
  split; [reflexivity|]. split; [apply showThousandths_read|]. split.
  - unfold queries in *. cbn. exact Hq.
  - unfold delays in *. cbn. exact Hd.
Qed.

Lemma wait_times_out_witness :
  1 <= 3
  /\ outcome (waitForCommandCompletion foreverInProgress "cmd-1" "i-1" 3 500)
     = Throw (newError "SSM command did not complete within 1.5 seconds")
  /\ queries (trace (waitForCommandCompletion foreverInProgress "cmd-1" "i-1"
                       3 500)) = 3.
Proof.
  split; [lia|].
  destruct (wait_times_out foreverInProgress "cmd-1" "i-1" 3 500)
    as (Ho & _ & Hq & _).
  - lia.
  - vm_compute. reflexivity.
  - intros j Hj.
    destruct j as [|[|[|[|j]]]]; try lia; reflexivity.
  - split; [exact Ho | exact Hq].
Defined.

(** C3, as the code has it.  The status is compared as it was reported, with
    the exact spellings "Failed" and "Cancelled"; only the status text inside
    the message is put in lower case.  A poll that reports one of the two,
    after any number of retried polls, ends [waitForCommandCompletion] at
    once: the query is the last effect, and the error thrown has the message
    "SSM command failed: " or "SSM command cancelled: " followed by the
    captured standard error, or by "No error output" when there is none or it
    is empty. *)
Theorem wait_failed_or_cancelled :
  forall (w : World) (cid iid : string) (maxAttempts : nat) (delayMs : N)
         (k : nat) (invocation : Invocation) (s : string),
  1 <= k <= maxAttempts ->
  (forall j, 1 <= j < k -> retried (getCommandInvocation w j cid iid) = true) ->
  getCommandInvocation w k cid iid = inr invocation ->
  Status invocation = Some s ->
  s = "Failed" \/ s = "Cancelled" ->
  let r := waitForCommandCompletion w cid iid maxAttempts delayMs in
  outcome r =
    Throw (newError ("SSM command " ++ toLowerCase s ++ ": "
                       ++ orElse (StandardErrorContent invocation)
                            "No error output"))
  /\ exists t,
       trace r = (t ++ [GetCommandInvocation cid iid])%list
       /\ queries t = k - 1 /\ delays t = k - 1.
Proof.
  intros w cid iid maxAttempts delayMs k invocation s Hk Hretried Ha Hs Hcase r.
  destruct (wait_throws_at w cid iid maxAttempts delayMs k _ _ Hk Hretried
              (pollOnce_failed w cid iid maxAttempts delayMs k invocation s
                 Ha Hs Hcase))
    as (t & Hr & Hq & Hd).
  subst r. rewrite Hr. cbn [outcome trace fst snd].
  split; [reflexivity|]. exists t. auto.
Qed.

Lemma wait_failed_or_cancelled_witness :
  1 <= 1 <= 60
  /\ outcome (waitForCommandCompletion diskFull "cmd-1" "i-1" 60 2000)
     = Throw (newError "SSM command failed: disk full").
Proof.
  split; [lia|].
  destruct (wait_failed_or_cancelled diskFull "cmd-1" "i-1" 60 2000 1
              {| Status := Some "Failed"; StandardOutputContent := None;
                 StandardErrorContent := Some "disk full" |} "Failed")
    as (Ho & _).
  - lia.
  - intros j Hj. lia.
  - reflexivity.
  - reflexivity.
  - left. reflexivity.
  - exact Ho.
Defined.

(** C3, as stated, fails: the status "FAILED" is "failed" once put in lower
    case, yet the poll that reports it with standard error "disk full" ends in
    the error for an unexpected status, whose message does not hold the
    captured standard error. *)
Lemma wait_failed_uppercase_unexpected :
  toLowerCase "FAILED" = toLowerCase "Failed"
  /\ waitForCommandCompletion diskFullUpperCase "cmd-1" "i-1" 60 2000 =
     ([ Info "Waiting for SSM command cmd-1 to complete...";
        GetCommandInvocation "cmd-1" "i-1" ],
      Throw (newError "Unexpected SSM command status: FAILED"))
  /\ includes "Unexpected SSM command status: FAILED" "disk full" = false
  /\ "Unexpected SSM command status: FAILED" <> "SSM command failed: disk full".
Proof.
  repeat split; try reflexivity. discriminate.
Qed.

(** C4.  A poll that reports a status other than Pending, Delayed,
    InProgress, Success, Failed and Cancelled, after any number of retried
    polls, ends [waitForCommandCompletion] at once with the error "Unexpected
    SSM command status: " followed by the status; the query that got the
    answer is the last effect, so no further query and no delay follows. *)
Theorem wait_unexpected_status :
  forall (w : World) (cid iid : string) (maxAttempts : nat) (delayMs : N)
         (k : nat) (invocation : Invocation) (s : string),
  1 <= k <= maxAttempts ->
  (forall j, 1 <= j < k -> retried (getCommandInvocation w j cid iid) = true) ->
  getCommandInvocation w k cid iid = inr invocation ->
  Status invocation = Some s ->
  knownStatus s = false ->
  let r := waitForCommandCompletion w cid iid maxAttempts delayMs in
  outcome r = Throw (newError ("Unexpected SSM command status: " ++ s))
  /\ exists t,
       trace r = (t ++ [GetCommandInvocation cid iid])%list
       /\ queries t = k - 1 /\ delays t = k - 1.
Proof.
  intros w cid iid maxAttempts delayMs k invocation s Hk Hretried Ha Hs Hnew r.
  assert (Hstep := pollOnce_unexpected w cid iid maxAttempts delayMs k
                     invocation Ha).
  rewrite Hs in Hstep. specialize (Hstep Hnew). cbn [interpolate] in Hstep.
  destruct (wait_throws_at w cid iid maxAttempts delayMs k _ _ Hk Hretried
              Hstep)
    as (t & Hr & Hq & Hd).
  subst r. rewrite Hr. cbn [outcome trace fst snd].
  split; [reflexivity|]. exists t. auto.
Qed.

Lemma wait_unexpected_status_witness :
  knownStatus "Throttled" = false
  /\ outcome (waitForCommandCompletion throttled "cmd-1" "i-1" 60 2000)
     = Throw (newError "Unexpected SSM command status: Throttled").
Proof.
  split; [reflexivity|].
  destruct (wait_unexpected_status throttled "cmd-1" "i-1" 60 2000 1
              {| Status := Some "Throttled"; StandardOutputContent := None;
                 StandardErrorContent := None |} "Throttled")
    as (Ho & _).
  - lia.
  - intros j Hj. lia.
  - reflexivity.
  - reflexivity.
  - reflexivity.
  - exact Ho.
Defined.

(** * The object stager *)

Section Stager.

Variable w : World.
Variables path bucketName : string.
Variable reg : option string.

Let uploading : Event :=
  Info ("Uploading " ++ path ++ " to s3://" ++ stripS3Scheme bucketName ++ "/"
          ++ stagingKey (now w) path).

Let put (body : string) : Event :=
  PutObject (clientRegion reg) (stripS3Scheme bucketName)
    (stagingKey (now w) path) body.

(** The path is not one of a regular file: the only effect is the [stat]. *)
Lemma upload_no_file :
  stat w path <> inr true ->
  uploadFileToS3 w path bucketName reg =
  ([StatSync path],
   Throw (newError ("Cannot access local file: " ++ path ++ ". "
                      ++ match stat w path with
                         | inl error => errorMessage error
                         | inr _ => path ++ " is not a file"
                         end))).
Proof.
  intros Hstat. unfold uploadFileToS3.
  destruct (stat w path) as [error | [|]]; [| congruence |]; reflexivity.
Qed.

(** The file is there and reading it fails. *)
Lemma upload_read_fails (error : Thrown) :
  stat w path = inr true ->
  readFile w path = inl error ->
  uploadFileToS3 w path bucketName reg =
  ([StatSync path; uploading; ReadFileSync path],
   Throw (newError ("Failed to upload file to S3: " ++ errorMessage error))).
Proof.
  intros Hstat Hread. unfold uploadFileToS3. rewrite Hstat, Hread.
  reflexivity.
Qed.

(** The file is read and the put fails. *)
Lemma upload_put_fails (body : string) (error : Thrown) :
  stat w path = inr true ->
  readFile w path = inr body ->
  putObject w (stripS3Scheme bucketName) (stagingKey (now w) path) body
    = inl error ->
  uploadFileToS3 w path bucketName reg =
  ([StatSync path; uploading; ReadFileSync path; put body],
   Throw (newError ("Failed to upload file to S3: " ++ errorMessage error))).
Proof.
  intros Hstat Hread Hput. unfold uploadFileToS3.
  rewrite Hstat, Hread. cbn [call bind tryCatch negb]. rewrite Hput.
  reflexivity.
Qed.

(** The put succeeds. *)
Lemma upload_succeeds (body : string) :
  stat w path = inr true ->
  readFile w path = inr body ->
  putObject w (stripS3Scheme bucketName) (stagingKey (now w) path) body
    = inr tt ->
  uploadFileToS3 w path bucketName reg =
  ([StatSync path; uploading; ReadFileSync path; put body;
    Info ("Successfully uploaded file to s3://" ++ stripS3Scheme bucketName
            ++ "/" ++ stagingKey (now w) path)],
   Return {| bucket := stripS3Scheme bucketName;
             key := stagingKey (now w) path;
             s3Uri := "s3://" ++ stripS3Scheme bucketName ++ "/"
                        ++ stagingKey (now w) path |}).
Proof.
  intros Hstat Hread Hput. unfold uploadFileToS3.
  rewrite Hstat, Hread. cbn [call bind tryCatch negb]. rewrite Hput.
  reflexivity.
Qed.

(** What a successful upload returns, and what an upload throws, whatever
    the world. *)
Lemma upload_outcome :
  match outcome (uploadFileToS3 w path bucketName reg) with
  | Return result =>
      result = {| bucket := stripS3Scheme bucketName;
                  key := stagingKey (now w) path;
                  s3Uri := "s3://" ++ stripS3Scheme bucketName ++ "/"
                             ++ stagingKey (now w) path |}
  | Throw error => exists message, error = newError message
  end.
Proof.
  destruct (stat w path) as [e | [|]] eqn:Hstat.
  - rewrite upload_no_file by congruence. cbn. eauto.
  - destruct (readFile w path) as [e | body] eqn:Hread.
    + rewrite (upload_read_fails e) by assumption. cbn. eauto.
    + destruct (putObject w (stripS3Scheme bucketName)
                  (stagingKey (now w) path) body) as [e | []] eqn:Hput.
      * rewrite (upload_put_fails body e) by assumption. cbn. eauto.
      * rewrite (upload_succeeds body) by assumption. reflexivity.
  - rewrite upload_no_file by congruence. cbn. eauto.
Qed.

(** An upload that throws never got to submit a command or query a status. *)
Lemma upload_trace_local :
  submissions (trace (uploadFileToS3 w path bucketName reg)) = 0
  /\ queries (trace (uploadFileToS3 w path bucketName reg)) = 0.
Proof.
  destruct (stat w path) as [e | [|]] eqn:Hstat.
  - rewrite upload_no_file by congruence. split; reflexivity.
  - destruct (readFile w path) as [e | body] eqn:Hread.
    + rewrite (upload_read_fails e) by assumption. split; reflexivity.
    + destruct (putObject w (stripS3Scheme bucketName)
                  (stagingKey (now w) path) body) as [e | []] eqn:Hput.
      * rewrite (upload_put_fails body e) by assumption. split; reflexivity.
      * rewrite (upload_succeeds body) by assumption. split; reflexivity.
  - rewrite upload_no_file by congruence. split; reflexivity.
Qed.

End Stager.

(** C8.  When [localPath] is missing ([statSync] throws) or is not a regular
    file, [uploadFileToS3] throws the error "Cannot access local file: ",
    then the path, then the cause: the message of the [stat] error, or
    "<path> is not a file".  The [stat] call is its only effect: nothing was
    read and no put was issued. *)
Theorem upload_rejects_missing_or_directory :
  forall (w : World) (localPath bucketName : string) (reg : option string),
  stat w localPath <> inr true ->
  let r := uploadFileToS3 w localPath bucketName reg in
  outcome r =
    Throw (newError ("Cannot access local file: " ++ localPath ++ ". "
                       ++ match stat w localPath with
                          | inl error => errorMessage error
                          | inr _ => localPath ++ " is not a file"
                          end))
  /\ trace r = [StatSync localPath]
  /\ puts (trace r) = 0.
Proof.
  intros w localPath bucketName reg Hstat r. subst r.
  rewrite upload_no_file by assumption. repeat split.
Qed.

Lemma upload_rejects_missing_or_directory_witness :
  outcome (uploadFileToS3 (withStat (fun _ => inr false) successAtOnce)
             "build" "my-bucket" None)
  = Throw (newError "Cannot access local file: build. build is not a file")
  /\ puts (trace (uploadFileToS3 (withStat (fun _ => inr false) successAtOnce)
                   "build" "my-bucket" None)) = 0.
Proof.
  destruct (upload_rejects_missing_or_directory
              (withStat (fun _ => inr false) successAtOnce)
              "build" "my-bucket" None)
    as (Ho & _ & Hp).
  - discriminate.
  - split; [exact Ho | exact Hp].
Defined.

(** C10.  When the [stat] check passes and reading the file then fails,
    [uploadFileToS3] throws the error of the upload block, "Failed to upload
    file to S3: " followed by the message of the read error, and not the
    "Cannot access local file" error; no put was issued. *)
Theorem upload_read_failure_is_staging_failure :
  forall (w : World) (localPath bucketName : string) (reg : option string)
         (error : Thrown),
  stat w localPath = inr true ->
  readFile w localPath = inl error ->
  let r := uploadFileToS3 w localPath bucketName reg in
  let message := "Failed to upload file to S3: " ++ errorMessage error in
  outcome r = Throw (newError message)
  /\ prefix "Failed to upload file to S3:" message = true
  /\ prefix "Cannot access local file:" message = false
  /\ puts (trace r) = 0.
Proof.
  intros w localPath bucketName reg error Hstat Hread r message.
  subst r message.
  rewrite (upload_read_fails w localPath bucketName reg error Hstat Hread).
  repeat split.
Qed.

Lemma upload_read_failure_is_staging_failure_witness :
  outcome (uploadFileToS3
             (withReadFile
                (fun _ => inl (newError "EACCES: permission denied, open"))
                successAtOnce)
             "build/app.tar" "my-bucket" None)
  = Throw (newError
             "Failed to upload file to S3: EACCES: permission denied, open").
Proof.
  destruct (upload_read_failure_is_staging_failure
              (withReadFile
                 (fun _ => inl (newError "EACCES: permission denied, open"))
                 successAtOnce)
              "build/app.tar" "my-bucket" None
              (newError "EACCES: permission denied, open"))
    as (Ho & _).
  - reflexivity.
  - reflexivity.
  - exact Ho.
Defined.

(** * The staging key *)

Lemma string_of_list_ascii_app (a b : list ascii) :
  string_of_list_ascii (a ++ b) =
  string_of_list_ascii a ++ string_of_list_ascii b.
Proof. induction a as [|c a IH]; cbn; [reflexivity | now rewrite IH]. Qed.

Lemma includes_slash_false (s : string) :
  includes s "/" = false <-> ~ In "/"%char (list_ascii_of_string s).
Proof.
  induction s as [|c s IH]; cbn [includes prefix list_ascii_of_string In].
  - split; [tauto | reflexivity].
  - destruct (ascii_dec "/" c) as [<- | Hc].
    + replace (prefix "" s) with true by (destruct s; reflexivity).
      split; [intros H; discriminate H | intros H; exfalso; apply H; now left].
    + rewrite IH. split.
      * intros H [Heq | Hin]; [congruence | tauto].
      * intros H Hin. apply H. now right.
Qed.

Lemma takeToSlash_no_slash (l : list ascii) : ~ In "/"%char (takeToSlash l).
Proof.
  induction l as [|c l IH]; cbn; [tauto|].
  unfold isSlash. destruct (Ascii.eqb_spec c "/") as [-> | Hc]; cbn; [tauto|].
  intros [Heq | Hin]; [congruence | tauto].
Qed.

(** What the backward scan leaves aside: separators first, and after the
    name either nothing or a separator. *)
Lemma dropSlashes_split (l : list ascii) :
  exists seps, l = (seps ++ dropSlashes l)%list
               /\ onlySlashes (string_of_list_ascii (rev seps)) = true.
Proof.
  induction l as [|c l (seps & Hl & Hs)]; cbn.
  - exists []. split; reflexivity.
  - destruct (isSlash c) eqn:Hc.
    + exists (c :: seps). split; [cbn; congruence|].
      cbn [rev]. rewrite string_of_list_ascii_app.
      clear Hl. revert Hs.
      generalize (string_of_list_ascii (rev seps)) as s.
      induction s as [|d s IH]; cbn; intros H.
      * now rewrite Hc.
      * apply andb_true_iff in H as [Hd Hs]. rewrite Hd. cbn. now apply IH.
    + exists []. split; reflexivity.
Qed.

Lemma takeToSlash_split (l : list ascii) :
  exists rest, l = (takeToSlash l ++ rest)%list
               /\ (rest = [] \/ exists rest', rest = "/"%char :: rest').
Proof.
  induction l as [|c l (rest & Hl & Hrest)]; cbn.
  - exists []. split; [reflexivity | now left].
  - unfold isSlash. destruct (Ascii.eqb_spec c "/") as [-> | Hc].
    + exists ("/"%char :: l). split; [reflexivity | right; eauto].
    + exists rest. split; [cbn; congruence | exact Hrest].
Qed.

Lemma basename_no_slash (path : string) : includes (basename path) "/" = false.
Proof.
  apply includes_slash_false. unfold basename.
  rewrite list_ascii_of_string_of_list_ascii, <- in_rev.
  apply takeToSlash_no_slash.
Qed.

(** The path is a directory part, empty or ending with a separator, then the
    base name, then the separators that end the path. *)
Lemma basename_split (path : string) :
  exists dir trailing,
    path = dir ++ basename path ++ trailing
    /\ (dir = "" \/ exists d, dir = d ++ "/")
    /\ onlySlashes trailing = true.
Proof.
  destruct (dropSlashes_split (rev (list_ascii_of_string path)))
    as (seps & Hseps & Honly).
  destruct (takeToSlash_split (dropSlashes (rev (list_ascii_of_string path))))
    as (rest & Hrest & Hshape).
  exists (string_of_list_ascii (rev rest)),
         (string_of_list_ascii (rev seps)).
  split; [|split].
  - set (l := rev (list_ascii_of_string path)) in *.
    assert (Hpath : list_ascii_of_string path = rev l)
      by (subst l; now rewrite rev_involutive).
    unfold basename. fold l.
    rewrite <- !string_of_list_ascii_app.
    rewrite <- (string_of_list_ascii_of_string path) at 1.
    rewrite Hpath. f_equal.
    transitivity (rev (seps ++ takeToSlash (dropSlashes l) ++ rest)).
    + f_equal. rewrite <- Hrest. exact Hseps.
    + rewrite !rev_app_distr, app_assoc. reflexivity.
  - destruct Hshape as [-> | (rest' & ->)]; [now left | right].
    exists (string_of_list_ascii (rev rest')).
    cbn [rev]. now rewrite string_of_list_ascii_app.
  - exact Honly.
Qed.

Lemma showN_inj (a b : N) : showN a = showN b -> a = b.
Proof.
  unfold showN. intros H.
  apply Unsigned.to_uint_inj.
  assert (Hsome : Some (N.to_uint a) = Some (N.to_uint b))
    by (rewrite <- !NilEmpty.usu; now rewrite H).
  now injection Hsome.
Qed.

(** The text of a timestamp is made of digits: it holds no dash. *)
Lemma showN_no_dash (n : N) : ~ In "-"%char (list_ascii_of_string (showN n)).
Proof.
  unfold showN. generalize (N.to_uint n) as d.
  induction d as [|d IH|d IH|d IH|d IH|d IH|d IH|d IH|d IH|d IH|d IH];
    cbn [NilEmpty.string_of_uint list_ascii_of_string In];
    try tauto; intros [Heq | Hin]; try discriminate Heq; tauto.
Qed.

(** Two texts that agree up to their first dash have the same part before
    it. *)
Lemma before_dash (s1 : string) :
  forall s2 r1 r2 : string,
  ~ In "-"%char (list_ascii_of_string s1) ->
  ~ In "-"%char (list_ascii_of_string s2) ->
  s1 ++ "-" ++ r1 = s2 ++ "-" ++ r2 ->
  s1 = s2.
Proof.
  induction s1 as [|c s1 IH]; intros [|d s2] r1 r2 H1 H2 Heq;
    cbn in Heq, H1, H2.
  - reflexivity.
  - injection Heq as Hd _. exfalso. apply H2. now left.
  - injection Heq as Hc _. exfalso. apply H1. now left.
  - injection Heq as Hc Hrest. subst d. f_equal.
    apply (IH s2 r1 r2); tauto.
Qed.

Lemma string_app_assoc (a b c : string) : (a ++ b) ++ c = a ++ b ++ c.
Proof. induction a as [|x a IH]; cbn; [reflexivity | now rewrite IH]. Qed.

Lemma append_inv_head (s a b : string) : s ++ a = s ++ b -> a = b.
Proof.
  induction s as [|c s IH]; cbn; intros H; [exact H|].
  injection H as H. auto.
Qed.

(** Keys made at different milliseconds differ, whatever the two paths. *)
Lemma stagingKey_inj_time (t1 t2 : N) (p1 p2 : string) :
  stagingKey t1 p1 = stagingKey t2 p2 -> t1 = t2.
Proof.
  unfold stagingKey. intros H. apply append_inv_head in H.
  apply showN_inj.
  apply (before_dash _ _ (basename p1) (basename p2));
    [apply showN_no_dash | apply showN_no_dash | exact H].
Qed.

(** C9.  The key of a staged object is "github-actions-transfer/", the
    millisecond timestamp, a dash, and the base name of the local path.  The
    base name holds no path separator and is what the path has between its
    directory part and the separators that end it, so the key ends with the
    base name.  Two uploads whose clocks differ by at least one millisecond
    get distinct keys, for the same file name as for any other. *)
Theorem staging_key_form_and_uniqueness :
  (forall (w : World) (localPath bucketName : string) (reg : option string)
          (result : S3UploadResult),
     outcome (uploadFileToS3 w localPath bucketName reg) = Return result ->
     key result = "github-actions-transfer/" ++ showN (now w) ++ "-"
                    ++ basename localPath
     /\ (exists front, key result = front ++ basename localPath)
     /\ includes (basename localPath) "/" = false
     /\ exists dir trailing,
          localPath = dir ++ basename localPath ++ trailing
          /\ (dir = "" \/ exists d, dir = d ++ "/")
          /\ onlySlashes trailing = true)
  /\ (forall (w1 w2 : World) (path1 path2 bucket1 bucket2 : string)
             (reg1 reg2 : option string) (result1 result2 : S3UploadResult),
        outcome (uploadFileToS3 w1 path1 bucket1 reg1) = Return result1 ->
        outcome (uploadFileToS3 w2 path2 bucket2 reg2) = Return result2 ->
        (now w1 + 1 <= now w2 \/ now w2 + 1 <= now w1)%N ->
        key result1 <> key result2).
Proof.
  split.
  - intros w localPath bucketName reg result Hup.
    assert (Hres := upload_outcome w localPath bucketName reg).
    rewrite Hup in Hres. subst result. cbn [key].
    split; [reflexivity|]. split; [|split].
    + exists ("github-actions-transfer/" ++ showN (now w) ++ "-").
      unfold stagingKey. now rewrite !string_app_assoc.
    + apply basename_no_slash.
    + apply basename_split.
  - intros w1 w2 path1 path2 bucket1 bucket2 reg1 reg2 result1 result2
      Hup1 Hup2 Hclock Hkey.
    assert (Hres1 := upload_outcome w1 path1 bucket1 reg1).
    assert (Hres2 := upload_outcome w2 path2 bucket2 reg2).
    rewrite Hup1 in Hres1. rewrite Hup2 in Hres2. subst result1 result2.
    cbn [key] in Hkey. apply stagingKey_inj_time in Hkey. lia.
Qed.

Lemma staging_key_form_and_uniqueness_witness :
  (1700000000000 + 1 <= 1700000000001)%N
  /\ key {| bucket := "my-bucket";
            key := "github-actions-transfer/1700000000000-app.tar";
            s3Uri :=
              "s3://my-bucket/github-actions-transfer/1700000000000-app.tar" |}
     <> key {| bucket := "my-bucket";
               key := "github-actions-transfer/1700000000001-app.tar";
               s3Uri :=
                 "s3://my-bucket/github-actions-transfer/1700000000001-app.tar"
            |}.
Proof.
  split; [lia|].
  apply (proj2 staging_key_form_and_uniqueness
           successAtOnce (withNow 1700000000001 successAtOnce)
           "build/app.tar" "build/app.tar" "s3://my-bucket" "my-bucket"
           None None).
  - reflexivity.
  - reflexivity.
  - left. vm_compute. discriminate.
Defined.

(** * The dispatcher *)

Section Dispatcher.

Variable w : World.
Variable inst : string.
Variable staged : S3UploadResult.
Variable destination : string.
Variable reg : option string.

Let commands : list string := transferCommands (s3Uri staged) destination.

Let executing : Event :=
  Info ("Executing SSM command on instance " ++ inst
          ++ " to download file from " ++ s3Uri staged).

Let submit : Event :=
  SendCommand (clientRegion reg) inst "AWS-RunShellScript" commands.

(** The submission call fails. *)
Lemma transfer_send_fails (error : Thrown) :
  sendCommand w inst commands = inl error ->
  transferFileViaSSM w inst staged destination reg =
  ([executing; submit],
   Throw (newError ("Failed to transfer file via SSM: "
                      ++ errorMessage error))).
Proof.
  subst commands executing submit. intros Hsend.
  unfold transferFileViaSSM. rewrite Hsend. reflexivity.
Qed.

(** The submission call answers without a command identifier. *)
Lemma transfer_no_command_id (response : SendCommandCommandOutput) :
  sendCommand w inst commands = inr response ->
  falsy (responseCommandId response) = true ->
  transferFileViaSSM w inst staged destination reg =
  ([executing; submit],
   Throw (newError ("Failed to transfer file via SSM: "
                      ++ "SSM command was sent but no CommandId was returned"))).
Proof.
  subst commands executing submit. intros Hsend Hid.
  unfold transferFileViaSSM. rewrite Hsend. cbn [call bind].
  rewrite Hid. reflexivity.
Qed.

(** The submission call answers with a command identifier: the command is
    polled with the default budget, and what the poller throws is thrown
    again under the prefix of [transferFileViaSSM]. *)
Lemma transfer_dispatched (response : SendCommandCommandOutput) :
  sendCommand w inst commands = inr response ->
  falsy (responseCommandId response) = false ->
  let id := interpolate (responseCommandId response) in
  let polled :=
    waitForCommandCompletion w id inst defaultMaxAttempts defaultDelayMs in
  transferFileViaSSM w inst staged destination reg =
  ((executing :: submit :: Info ("SSM Command sent with ID: " ++ id)
      :: trace polled)%list,
   match outcome polled with
   | Return result => Return result
   | Throw error =>
       Throw (newError ("Failed to transfer file via SSM: "
                          ++ errorMessage error))
   end).
Proof.
  subst commands executing submit. intros Hsend Hid id polled.
  unfold transferFileViaSSM. rewrite Hsend. cbn [call bind].
  rewrite Hid. fold id. fold polled.
  destruct polled as [t [result | error]];
    cbn [emit bind tryCatch ret throw trace outcome fst snd app];
    rewrite ?app_nil_r; reflexivity.
Qed.

(** Whatever [transferFileViaSSM] throws is an [Error] made by its own
    [catch] block. *)
Lemma transfer_throws_own_error (error : Thrown) :
  outcome (transferFileViaSSM w inst staged destination reg) = Throw error ->
  exists cause,
    error = newError ("Failed to transfer file via SSM: " ++ cause).
Proof.
  destruct (sendCommand w inst commands) as [e | response] eqn:Hsend.
  - rewrite (transfer_send_fails e Hsend). cbn. intros [= <-]. eauto.
  - destruct (falsy (responseCommandId response)) eqn:Hid.
    + rewrite (transfer_no_command_id response Hsend Hid). cbn.
      intros [= <-]. eauto.
    + rewrite (transfer_dispatched response Hsend Hid). cbn.
      destruct (outcome _); intros [= <-]. eauto.
Qed.

End Dispatcher.

(** C7.  When the submission call succeeds and its response carries no
    command identifier ([Command] absent, [CommandId] absent, or empty),
    [transferFileViaSSM] throws an error whose message reports that no
    CommandId was returned, and the submission is its last effect: the poller
    is not entered and no status query is issued. *)
Theorem transfer_without_command_id :
  forall (w : World) (instanceId : string) (s3Result : S3UploadResult)
         (remotePath : string) (reg : option string)
         (response : SendCommandCommandOutput),
  sendCommand w instanceId (transferCommands (s3Uri s3Result) remotePath)
    = inr response ->
  falsy (responseCommandId response) = true ->
  let r := transferFileViaSSM w instanceId s3Result remotePath reg in
  outcome r =
    Throw (newError "Failed to transfer file via SSM: SSM command was sent but no CommandId was returned")
  /\ trace r =
     [ Info ("Executing SSM command on instance " ++ instanceId
               ++ " to download file from " ++ s3Uri s3Result);
       SendCommand (clientRegion reg) instanceId "AWS-RunShellScript"
         (transferCommands (s3Uri s3Result) remotePath) ]
  /\ queries (trace r) = 0
  /\ delays (trace r) = 0.
Proof.
  intros w instanceId s3Result remotePath reg response Hsend Hid r. subst r.
  rewrite (transfer_no_command_id w instanceId s3Result remotePath reg
             response Hsend Hid).
  repeat split.
Qed.

Lemma transfer_without_command_id_witness :
  falsy (responseCommandId {| Command_ := Some {| CommandId := None |} |})
  = true
  /\ outcome
       (transferFileViaSSM
          (withSendCommand
             (fun _ _ => inr {| Command_ := Some {| CommandId := None |} |})
             successAtOnce)
          "i-1234567890abcdef0"
          {| bucket := "my-bucket"; key := "k"; s3Uri := "s3://my-bucket/k" |}
          "/opt/app/app.tar" None)
     = Throw (newError "Failed to transfer file via SSM: SSM command was sent but no CommandId was returned")
  /\ queries
       (trace
          (transferFileViaSSM
             (withSendCommand
                (fun _ _ => inr {| Command_ := Some {| CommandId := None |} |})
                successAtOnce)
             "i-1234567890abcdef0"
             {| bucket := "my-bucket"; key := "k"; s3Uri := "s3://my-bucket/k" |}
             "/opt/app/app.tar" None)) = 0.
Proof.
  split; [reflexivity|].
  destruct (transfer_without_command_id
              (withSendCommand
                 (fun _ _ => inr {| Command_ := Some {| CommandId := None |} |})
                 successAtOnce)
              "i-1234567890abcdef0"
              {| bucket := "my-bucket"; key := "k"; s3Uri := "s3://my-bucket/k" |}
              "/opt/app/app.tar" None
              {| Command_ := Some {| CommandId := None |} |})
    as (Ho & _ & Hq & _).
  - reflexivity.
  - reflexivity.
  - split; [exact Ho | exact Hq].
Defined.

(** * The orchestrator *)

Lemma submissions_app (t t' : list Event) :
  submissions (t ++ t') = submissions t + submissions t'.
Proof. unfold submissions. now rewrite filter_app, length_app. Qed.

Lemma getInputs_trace (w : World) : trace (getInputs w) = [].
Proof.
  unfold getInputs, getInput.
  destruct (inputValue w "local-path" =? ""); [reflexivity|].
  destruct (inputValue w "remote-path" =? ""); [reflexivity|].
  destruct (inputValue w "instance" =? ""); [reflexivity|].
  destruct (inputValue w "intermediate-s3" =? ""); reflexivity.
Qed.

Lemma runHeader_quiet (inputs : ActionInputs) :
  submissions (runHeader inputs) = 0 /\ queries (runHeader inputs) = 0.
Proof. unfold runHeader. destruct (falsy (region inputs)); split; reflexivity. Qed.

(** Traces are compared with their appends nested to the right. *)
Ltac trace_norm := repeat (progress (cbn [app]; rewrite <- ?app_assoc)).

Section Orchestrator.

Variable w : World.
Variable inputs : ActionInputs.
Hypothesis Hinputs : outcome (getInputs w) = Return inputs.

Let staging : M S3UploadResult :=
  uploadFileToS3 w (localPath inputs) (intermediateS3 inputs) (region inputs).

Let transfer (staged : S3UploadResult) : M SSMCommandResult :=
  transferFileViaSSM w (instance inputs) staged (remotePath inputs)
    (region inputs).

(** [run] after its inputs were read: the header lines, then the stages
    under the [catch] block. *)
Lemma run_unfold :
  run w = tryCatch ((runHeader inputs, Return tt) ;; runStages w inputs)
            runCatch.
Proof.
  unfold run. assert (Ht := getInputs_trace w).
  destruct (getInputs w) as [t o]. cbn [trace outcome fst snd] in *.
  subst t o. unfold runHeader. cbn [emit bind app].
  destruct (falsy (region inputs));
    cbn [emit bind ret app]; destruct (runStages w inputs); reflexivity.
Qed.

(** The staging stage throws: the transfer stage is not entered. *)
Lemma run_staging_fails (error : Thrown) :
  outcome staging = Throw error ->
  trace (run w) =
  (runHeader inputs ++ StartGroup "Uploading file to S3" :: trace staging
     ++ [SetFailed (errorMessage error)])%list.
Proof.
  subst staging. intros Hup. rewrite run_unfold. unfold runStages.
  assert (Hown := upload_outcome w (localPath inputs) (intermediateS3 inputs)
                    (region inputs)).
  destruct (uploadFileToS3 w (localPath inputs) (intermediateS3 inputs)
              (region inputs)) as [t o].
  cbn [outcome trace fst snd] in *. subst o.
  destruct Hown as (message & ->).
  cbn [emit bind tryCatch runCatch newError errorMessage app trace fst].
  trace_norm. reflexivity.
Qed.

(** The staging stage returns and the transfer stage throws. *)
Lemma run_transfer_fails (staged : S3UploadResult) (error : Thrown) :
  outcome staging = Return staged ->
  outcome (transfer staged) = Throw error ->
  trace (run w) =
  (runHeader inputs ++ StartGroup "Uploading file to S3" :: trace staging
     ++ [EndGroup; StartGroup "Transferring file to EC2 instance via SSM"]
     ++ trace (transfer staged) ++ [SetFailed (errorMessage error)])%list.
Proof.
  subst staging transfer. cbv beta. intros Hup Htr.
  rewrite run_unfold. unfold runStages.
  destruct (transfer_throws_own_error w _ _ _ _ _ Htr) as (cause & ->).
  destruct (uploadFileToS3 w (localPath inputs) (intermediateS3 inputs)
              (region inputs)) as [t o].
  cbn [outcome trace fst snd] in *. subst o. cbn [emit bind app].
  destruct (transferFileViaSSM w (instance inputs) staged (remotePath inputs)
              (region inputs)) as [t' o'].
  cbn [outcome trace fst snd] in *. subst o'.
  cbn [emit bind tryCatch runCatch newError errorMessage app trace fst].
  trace_norm. reflexivity.
Qed.

(** Both stages return. *)
Lemma run_completes (staged : S3UploadResult) (result : SSMCommandResult) :
  outcome staging = Return staged ->
  outcome (transfer staged) = Return result ->
  run w =
  ((runHeader inputs ++ StartGroup "Uploading file to S3" :: trace staging
      ++ [EndGroup; StartGroup "Transferring file to EC2 instance via SSM"]
      ++ trace (transfer staged)
      ++ [EndGroup; Info "File transfer completed successfully!"])%list,
   Return tt).
Proof.
  subst staging transfer. cbv beta. intros Hup Htr.
  rewrite run_unfold. unfold runStages.
  destruct (uploadFileToS3 w (localPath inputs) (intermediateS3 inputs)
              (region inputs)) as [t o].
  cbn [outcome trace fst snd] in *. subst o. cbn [emit bind app].
  destruct (transferFileViaSSM w (instance inputs) staged (remotePath inputs)
              (region inputs)) as [t' o'].
  cbn [outcome trace fst snd] in *. subst o'.
  cbn [emit bind tryCatch app].
  trace_norm. reflexivity.
Qed.

End Orchestrator.

(** C5, as the code has it.  A failure of a stage ends [run]: an error thrown
    by [uploadFileToS3] is followed by nothing but [core.setFailed] (no
    command is submitted, no status queried), and an error thrown by
    [transferFileViaSSM] likewise.  In both cases [core.setFailed] gets the
    message of that error unchanged.  A failure of the poller is not handed
    over unchanged: [transferFileViaSSM] catches it and throws a new error
    whose message is "Failed to transfer file via SSM: " followed by the
    poller's message, and that is what [core.setFailed] gets. *)
Theorem run_surfaces_stage_errors :
  forall (w : World) (inputs : ActionInputs),
  outcome (getInputs w) = Return inputs ->
  let staging :=
    uploadFileToS3 w (localPath inputs) (intermediateS3 inputs)
      (region inputs) in
  let transfer staged :=
    transferFileViaSSM w (instance inputs) staged (remotePath inputs)
      (region inputs) in
  (forall error,
     outcome staging = Throw error ->
     trace (run w) =
       (runHeader inputs ++ StartGroup "Uploading file to S3" :: trace staging
          ++ [SetFailed (errorMessage error)])%list
     /\ submissions (trace (run w)) = 0
     /\ queries (trace (run w)) = 0)
  /\ (forall staged error,
        outcome staging = Return staged ->
        outcome (transfer staged) = Throw error ->
        trace (run w) =
          (runHeader inputs ++ StartGroup "Uploading file to S3"
             :: trace staging
             ++ [EndGroup;
                 StartGroup "Transferring file to EC2 instance via SSM"]
             ++ trace (transfer staged)
             ++ [SetFailed (errorMessage error)])%list)
  /\ (forall staged response error,
        outcome staging = Return staged ->
        sendCommand w (instance inputs)
          (transferCommands (s3Uri staged) (remotePath inputs))
          = inr response ->
        falsy (responseCommandId response) = false ->
        outcome (waitForCommandCompletion w
                   (interpolate (responseCommandId response))
                   (instance inputs) defaultMaxAttempts defaultDelayMs)
          = Throw error ->
        outcome (transfer staged) =
          Throw (newError ("Failed to transfer file via SSM: "
                             ++ errorMessage error))
        /\ exists t,
             trace (run w) =
               (t ++ [SetFailed ("Failed to transfer file via SSM: "
                                   ++ errorMessage error)])%list).
Proof.
  intros w inputs Hinputs staging transfer. split; [|split].
  - intros error Hup.
    assert (Htrace := run_staging_fails w inputs Hinputs error Hup).
    split; [exact Htrace|].
    rewrite Htrace.
    destruct (runHeader_quiet inputs) as (Hs & Hq).
    destruct (upload_trace_local w (localPath inputs) (intermediateS3 inputs)
                (region inputs)) as (Hus & Huq).
    fold staging in Hus, Huq. split.
    + rewrite submissions_app, Hs.
      change (submissions (trace staging ++ [SetFailed (errorMessage error)])
              = 0).
      rewrite submissions_app, Hus. reflexivity.
    + rewrite queries_app, Hq.
      change (queries (trace staging ++ [SetFailed (errorMessage error)]) = 0).
      rewrite queries_app, Huq. reflexivity.
  - intros staged error Hup Htr.
    exact (run_transfer_fails w inputs Hinputs staged error Hup Htr).
  - intros staged response error Hup Hsend Hid Hwait.
    assert (Htr : outcome (transfer staged) =
                  Throw (newError ("Failed to transfer file via SSM: "
                                     ++ errorMessage error))).
    { subst transfer. cbv beta.
      rewrite (transfer_dispatched w _ _ _ _ response Hsend Hid).
      cbn [outcome snd]. cbn [outcome] in Hwait. now rewrite Hwait. }
    split; [exact Htr|].
    eexists.
    rewrite (run_transfer_fails w inputs Hinputs staged _ Hup Htr).
    cbn [errorMessage newError].
    rewrite app_comm_cons, !app_assoc. reflexivity.
Qed.

Lemma run_surfaces_stage_errors_witness :
  failures (trace (run diskFull)) =
  [ "Failed to transfer file via SSM: SSM command failed: disk full" ].
Proof.
  destruct (run_surfaces_stage_errors diskFull
              {| localPath := "build/app.tar";
                 remotePath := "/opt/app/app.tar";
                 instance := "i-1234567890abcdef0";
                 intermediateS3 := "s3://my-bucket";
                 region := None |})
    as (_ & Htransfer & _); [reflexivity|].
  rewrite (Htransfer
             {| bucket := "my-bucket";
                key := "github-actions-transfer/1700000000000-app.tar";
                s3Uri :=
                  "s3://my-bucket/github-actions-transfer/1700000000000-app.tar"
             |}
             (newError
                "Failed to transfer file via SSM: SSM command failed: disk full"));
    reflexivity.
Defined.

(** C5, as stated, fails for the poller: its own error message is "SSM
    command failed: disk full", and the message that reaches
    [core.setFailed] has the prefix of [transferFileViaSSM] before it. *)
Lemma run_prefixes_poller_error :
  outcome (waitForCommandCompletion diskFull "cmd-1" "i-1234567890abcdef0"
             defaultMaxAttempts defaultDelayMs)
  = Throw (newError "SSM command failed: disk full")
  /\ failures (trace (run diskFull)) =
     [ "Failed to transfer file via SSM: SSM command failed: disk full" ]
  /\ "Failed to transfer file via SSM: SSM command failed: disk full"
     <> "SSM command failed: disk full".
Proof.
  repeat split; try reflexivity. discriminate.
Qed.

(** C6, as the code has it.  When staging succeeds, the submission answers
    with a command identifier and the first status query reports Success,
    [transferFileViaSSM] returns the command identifier, the status and the
    captured output, a record with no field for the staged object, and [run]
    returns nothing: it logs the completion line and never calls
    [core.setFailed].  The locator made by staging,
    "s3://<bucket>/<key>", is the one written into the copy command that was
    submitted. *)
Theorem run_succeeds_at_first_poll :
  forall (w : World) (inputs : ActionInputs) (staged : S3UploadResult)
         (response : SendCommandCommandOutput) (id : string)
         (invocation : Invocation),
  outcome (getInputs w) = Return inputs ->
  outcome (uploadFileToS3 w (localPath inputs) (intermediateS3 inputs)
             (region inputs)) = Return staged ->
  sendCommand w (instance inputs)
    (transferCommands (s3Uri staged) (remotePath inputs)) = inr response ->
  responseCommandId response = Some id ->
  id <> "" ->
  getCommandInvocation w 1 id (instance inputs) = inr invocation ->
  Status invocation = Some "Success" ->
  outcome (transferFileViaSSM w (instance inputs) staged (remotePath inputs)
             (region inputs))
  = Return {| commandId := id;
              status := "Success";
              output := Some (orElse (StandardOutputContent invocation) "") |}
  /\ outcome (run w) = Return tt
  /\ failures (trace (run w)) = []
  /\ (exists t,
        trace (run w) =
        (t ++ [EndGroup; Info "File transfer completed successfully!"])%list)
  /\ In (SendCommand (clientRegion (region inputs)) (instance inputs)
           "AWS-RunShellScript"
           [ "mkdir -p $(dirname " ++ remotePath inputs ++ ")";
             "aws s3 cp " ++ s3Uri staged ++ " " ++ remotePath inputs;
             "echo " ++ dquote ++ "File transferred successfully to "
               ++ remotePath inputs ++ dquote ])
        (trace (run w))
  /\ s3Uri staged = "s3://" ++ bucket staged ++ "/" ++ key staged.
Proof.
  intros w inputs staged response id invocation Hinputs Hup Hsend Hid Hne
    Hanswer Hstatus.
  assert (Hfalsy : falsy (responseCommandId response) = false).
  { rewrite Hid. cbn. now apply String.eqb_neq. }
  assert (Hwait :
    waitForCommandCompletion w id (instance inputs) defaultMaxAttempts
      defaultDelayMs =
    ([ Info ("Waiting for SSM command " ++ id ++ " to complete...");
       GetCommandInvocation id (instance inputs);
       Info "SSM command completed successfully" ],
     Return {| commandId := id; status := "Success";
               output := Some (orElse (StandardOutputContent invocation) "")
            |})).
  { unfold waitForCommandCompletion, defaultMaxAttempts. cbn [pollLoop].
    rewrite (pollOnce_success w id (instance inputs) _ _ 1 invocation
               Hanswer Hstatus).
    reflexivity. }
  assert (Htransfer :
    transferFileViaSSM w (instance inputs) staged (remotePath inputs)
      (region inputs) =
    ([ Info ("Executing SSM command on instance " ++ instance inputs
               ++ " to download file from " ++ s3Uri staged);
       SendCommand (clientRegion (region inputs)) (instance inputs)
         "AWS-RunShellScript"
         (transferCommands (s3Uri staged) (remotePath inputs));
       Info ("SSM Command sent with ID: " ++ id);
       Info ("Waiting for SSM command " ++ id ++ " to complete...");
       GetCommandInvocation id (instance inputs);
       Info "SSM command completed successfully" ],
     Return {| commandId := id; status := "Success";
               output := Some (orElse (StandardOutputContent invocation) "")
            |})).
  { rewrite (transfer_dispatched w _ _ _ _ response Hsend Hfalsy).
    rewrite Hid. cbn [interpolate]. rewrite Hwait. reflexivity. }
  assert (Hstaged := upload_outcome w (localPath inputs)
                       (intermediateS3 inputs) (region inputs)).
  rewrite Hup in Hstaged.
  assert (Hrun := run_completes w inputs Hinputs staged _ Hup
                    (f_equal outcome Htransfer)).
  cbv beta in Hrun. rewrite Htransfer in Hrun. cbn [trace fst] in Hrun.
  split; [now rewrite Htransfer|].
  split; [now rewrite Hrun|].
  split; [|split; [|split]].
  - rewrite Hrun. cbn [trace fst]. rewrite !failures_app.
    assert (Hheader : failures (runHeader inputs) = [])
      by (unfold runHeader; destruct (falsy (region inputs)); reflexivity).
    rewrite Hheader. cbn [app failures]. rewrite failures_app.
    assert (Hquiet :
      failures (trace (uploadFileToS3 w (localPath inputs)
                         (intermediateS3 inputs) (region inputs))) = []).
    { destruct (stat w (localPath inputs)) as [e | [|]] eqn:Hstat.
      - rewrite upload_no_file by congruence. reflexivity.
      - destruct (readFile w (localPath inputs)) as [e | body] eqn:Hread.
        + rewrite (upload_read_fails _ _ _ _ e) by assumption. reflexivity.
        + destruct (putObject w (stripS3Scheme (intermediateS3 inputs))
                      (stagingKey (now w) (localPath inputs)) body)
            as [e | []] eqn:Hput.
          * rewrite (upload_put_fails _ _ _ _ body e) by assumption.
            reflexivity.
          * rewrite (upload_succeeds _ _ _ _ body) by assumption.
            reflexivity.
      - rewrite upload_no_file by congruence. reflexivity. }
    rewrite Hquiet. reflexivity.
  - eexists. rewrite Hrun. cbn [trace fst].
    rewrite app_comm_cons, !app_assoc. reflexivity.
  - rewrite Hrun. cbn [trace fst]. apply in_or_app. right.
    right. apply in_or_app. right. right. right. right. left. reflexivity.
  - subst staged. reflexivity.
Qed.

Lemma run_succeeds_at_first_poll_witness :
  outcome (transferFileViaSSM successAtOnce "i-1234567890abcdef0"
             {| bucket := "my-bucket";
                key := "github-actions-transfer/1700000000000-app.tar";
                s3Uri :=
                  "s3://my-bucket/github-actions-transfer/1700000000000-app.tar"
             |}
             "/opt/app/app.tar" None)
  = Return {| commandId := "cmd-1"; status := "Success"; output := Some "ok" |}
  /\ outcome (run successAtOnce) = Return tt
  /\ failures (trace (run successAtOnce)) = [].
Proof.
  destruct (run_succeeds_at_first_poll successAtOnce
              {| localPath := "build/app.tar";
                 remotePath := "/opt/app/app.tar";
                 instance := "i-1234567890abcdef0";
                 intermediateS3 := "s3://my-bucket";
                 region := None |}
              {| bucket := "my-bucket";
                 key := "github-actions-transfer/1700000000000-app.tar";
                 s3Uri :=
                   "s3://my-bucket/github-actions-transfer/1700000000000-app.tar"
              |}
              {| Command_ := Some {| CommandId := Some "cmd-1" |} |}
              "cmd-1"
              {| Status := Some "Success"; StandardOutputContent := Some "ok";
                 StandardErrorContent := None |})
    as (Ht & Hr & Hf & _); try reflexivity.
  - discriminate.
  - repeat split; assumption.
Defined.

(** C6, as stated, fails: with staging, submission and the first poll all
    succeeding, [run] returns no value, and the record [transferFileViaSSM]
    returns holds the command identifier, the status and the output, none of
    which is the locator made by staging. *)
Lemma run_returns_no_locator :
  outcome (uploadFileToS3 successAtOnce "build/app.tar" "s3://my-bucket" None)
  = Return {| bucket := "my-bucket";
              key := "github-actions-transfer/1700000000000-app.tar";
              s3Uri :=
                "s3://my-bucket/github-actions-transfer/1700000000000-app.tar"
           |}
  /\ outcome (run successAtOnce) = Return tt
  /\ outcome (transferFileViaSSM successAtOnce "i-1234567890abcdef0"
                {| bucket := "my-bucket";
                   key := "github-actions-transfer/1700000000000-app.tar";
                   s3Uri :=
                     "s3://my-bucket/github-actions-transfer/1700000000000-app.tar"
                |}
                "/opt/app/app.tar" None)
     = Return {| commandId := "cmd-1"; status := "Success";
                 output := Some "ok" |}
  /\ includes "cmd-1" "s3://my-bucket/github-actions-transfer/1700000000000-app.tar"
     = false
  /\ includes "Success" "s3://my-bucket/github-actions-transfer/1700000000000-app.tar"
     = false
  /\ includes "ok" "s3://my-bucket/github-actions-transfer/1700000000000-app.tar"
     = false.
Proof.
  repeat split; reflexivity.
Qed.

(** * Further properties of the completion poller *)


Section PollerShape.

Variable w : World.
Variables cid iid : string.
Variable maxAttempts : nat.
Variable delayMs : N.

Let answer (attempt : nat) : Thrown + Invocation :=
  getCommandInvocation w attempt cid iid.

Let query : Event := GetCommandInvocation cid iid.

(** The three ways an iteration can end: the loop goes on after a retried
    answer, the function returns on Success, or the iteration throws. *)
Lemma pollOnce_cases (attempt : nat) :
  (retried (answer attempt) = true
   /\ pollOnce w cid iid maxAttempts delayMs attempt =
      ([query; Info (retryLine maxAttempts attempt (answer attempt));
        Sleep delayMs], Return None))
  \/ (exists invocation,
        answer attempt = inr invocation
        /\ Status invocation = Some "Success"
        /\ pollOnce w cid iid maxAttempts delayMs attempt =
           ([query; Info "SSM command completed successfully"],
            Return (Some {| commandId := cid;
                            status := "Success";
                            output := Some (orElse
                                              (StandardOutputContent invocation)
                                              "") |})))
  \/ (retried (answer attempt) = false
      /\ exists error,
           pollOnce w cid iid maxAttempts delayMs attempt =
           ([query], Throw error)).
Proof.
  destruct (retried (answer attempt)) eqn:Hretried.
  - left. split; [reflexivity|]. now apply pollOnce_retried.
  - right. subst answer query. cbv beta in *.
    destruct (getCommandInvocation w attempt cid iid)
      as [error | invocation] eqn:Ha.
    + right. split; [reflexivity|]. exists error.
      apply pollOnce_error; [exact Ha|].
      unfold retried, notYetVisible in Hretried.
      now apply orb_false_iff in Hretried as [Hn _].
    + destruct (Status invocation) as [s|] eqn:Hs.
      * destruct (String.eqb_spec s "Success") as [-> | Hsuccess].
        { left. exists invocation. split; [reflexivity|]. split; [exact Hs|].
          now apply pollOnce_success. }
        right. split; [reflexivity|].
        destruct (String.eqb_spec s "Failed") as [-> | Hfailed].
        { eexists. apply (pollOnce_failed w cid iid _ _ _ invocation "Failed");
            auto. }
        destruct (String.eqb_spec s "Cancelled") as [-> | Hcancelled].
        { eexists.
          apply (pollOnce_failed w cid iid _ _ _ invocation "Cancelled");
            auto. }
        eexists. apply pollOnce_unexpected; [exact Ha|]. rewrite Hs.
        unfold retried, notYetVisible, nonTerminal, reports in Hretried.
        rewrite Hs in Hretried. cbn [strictEq orb] in Hretried.
        unfold knownStatus.
        destruct (String.eqb_spec s "Success"); [contradiction|].
        destruct (String.eqb_spec s "Failed"); [contradiction|].
        destruct (String.eqb_spec s "Cancelled"); [contradiction|].
        destruct (s =? "Pending"), (s =? "Delayed"), (s =? "InProgress");
          cbn in *; congruence.
      * right. split; [reflexivity|]. eexists.
        apply pollOnce_unexpected; [exact Ha|]. now rewrite Hs.
Qed.

(** The iteration reads the world through the answer to its own query only. *)
Lemma pollOnce_ext (w' : World) (attempt : nat) :
  getCommandInvocation w' attempt cid iid = answer attempt ->
  pollOnce w' cid iid maxAttempts delayMs attempt =
  pollOnce w cid iid maxAttempts delayMs attempt.
Proof.
  subst answer. cbv beta. intros Ha. unfold pollOnce. now rewrite Ha.
Qed.

(** What the loop keeps, with [remaining] iterations left. *)
Lemma pollLoop_invariant (remaining : nat) :
  forall attempt,
  let t := trace (pollLoop w cid iid maxAttempts delayMs remaining attempt) in
  queries t <= remaining
  /\ delays t <= queries t
  /\ slept t = (N.of_nat (delays t) * delayMs)%N
  /\ forallb (pollerEvent cid iid delayMs) t = true.
Proof.
  induction remaining as [|remaining IH]; intros attempt t.
  - subst t. cbn. repeat split; lia.
  - subst t. cbn [pollLoop].
    destruct (pollOnce_cases attempt)
      as [(_ & Hstep) | [(invocation & _ & _ & Hstep) | (_ & error & Hstep)]];
      rewrite Hstep; cbn [bind ret].
    + specialize (IH (S attempt)). cbv zeta in IH.
      destruct (pollLoop w cid iid maxAttempts delayMs remaining (S attempt))
        as [t' o']. cbn [trace fst] in *.
      destruct IH as (Hq & Hd & Hs & Hall).
      subst query. unfold queries, delays in *.
      cbn [app filter isQuery isSleep length slept forallb pollerEvent].
      rewrite !String.eqb_refl, N.eqb_refl, Hall, Hs.
      repeat split; try lia.
    + subst query. unfold queries, delays.
      cbn [trace fst app filter isQuery isSleep length slept forallb
             pollerEvent].
      rewrite !String.eqb_refl. repeat split; try lia.
    + subst query. unfold queries, delays.
      cbn [trace fst app filter isQuery isSleep length slept forallb
             pollerEvent].
      rewrite !String.eqb_refl. repeat split; try lia.
Qed.

(** The loop returns only from an iteration that saw Success, after retried
    answers only. *)
Lemma pollLoop_returns (remaining : nat) :
  forall attempt result,
  outcome (pollLoop w cid iid maxAttempts delayMs remaining attempt)
    = Return result ->
  exists k invocation,
    k < remaining
    /\ (forall j, attempt <= j < attempt + k -> retried (answer j) = true)
    /\ answer (attempt + k) = inr invocation
    /\ Status invocation = Some "Success"
    /\ result = {| commandId := cid;
                   status := "Success";
                   output := Some (orElse (StandardOutputContent invocation)
                                     "") |}
    /\ queries (trace (pollLoop w cid iid maxAttempts delayMs remaining
                         attempt)) = S k
    /\ delays (trace (pollLoop w cid iid maxAttempts delayMs remaining
                        attempt)) = k.
Proof.
  induction remaining as [|remaining IH]; intros attempt result.
  - cbn. discriminate.
  - cbn [pollLoop].
    destruct (pollOnce_cases attempt)
      as [(Hretried & Hstep)
         | [(invocation & Ha & Hs & Hstep) | (_ & error & Hstep)]];
      rewrite Hstep; cbn [bind ret].
    + specialize (IH (S attempt) result).
      destruct (pollLoop w cid iid maxAttempts delayMs remaining (S attempt))
        as [t' o']. cbn [outcome trace fst snd] in *.
      intros Ho. destruct (IH Ho) as (k & invocation & Hk & Hall & Ha & Hs
                                        & Hres & Hq & Hd).
      exists (S k), invocation.
      replace (attempt + S k) with (S attempt + k) by lia.
      repeat split; try assumption; try lia.
      * intros j Hj. destruct (Nat.eq_dec j attempt) as [-> | Hne];
          [exact Hretried | apply Hall; lia].
      * subst query. unfold queries in *. cbn. now rewrite Hq.
      * subst query. unfold delays in *. cbn. now rewrite Hd.
    + cbn [outcome snd]. intros [= <-].
      exists 0, invocation. rewrite Nat.add_0_r.
      repeat split; try assumption; try lia.
    + cbn [outcome snd]. discriminate.
Qed.

End PollerShape.

(** X1.  A poll that reports Success at attempt [k], after [k - 1] retried
    polls, makes [waitForCommandCompletion] return the command identifier,
    the status Success and the captured standard output (the empty string
    when none was captured), after exactly [k] queries and [k - 1] delays of
    [delayMs] each. *)
Theorem wait_succeeds_at :
  forall (w : World) (cid iid : string) (maxAttempts : nat) (delayMs : N)
         (k : nat) (invocation : Invocation),
  1 <= k <= maxAttempts ->
  (forall j, 1 <= j < k -> retried (getCommandInvocation w j cid iid) = true) ->
  getCommandInvocation w k cid iid = inr invocation ->
  Status invocation = Some "Success" ->
  let r := waitForCommandCompletion w cid iid maxAttempts delayMs in
  outcome r =
    Return {| commandId := cid;
              status := "Success";
              output := Some (orElse (StandardOutputContent invocation) "") |}
  /\ queries (trace r) = k
  /\ delays (trace r) = k - 1
  /\ slept (trace r) = (N.of_nat (k - 1) * delayMs)%N.
Proof.
  intros w cid iid maxAttempts delayMs k invocation Hk Hretried Ha Hs r.
  destruct (pollLoop_retried w cid iid maxAttempts delayMs (k - 1)
              (S (maxAttempts - k)) 1)
    as (t & Hloop & Hq & Hd).
  { intros j Hj. apply Hretried. lia. }
  replace (k - 1 + S (maxAttempts - k)) with maxAttempts in Hloop by lia.
  replace (1 + (k - 1)) with k in Hloop by lia.
  cbn [pollLoop] in Hloop.
  rewrite (pollOnce_success w cid iid _ _ k invocation Ha Hs) in Hloop.
  cbn [bind ret trace outcome fst snd app] in Hloop.
  assert (Hinv := pollLoop_invariant w cid iid maxAttempts delayMs
                    maxAttempts 1).
  cbv zeta in Hinv. destruct Hinv as (_ & _ & Hslept & _).
  subst r. rewrite wait_unfold.
  cbn [outcome trace fst snd]. rewrite Hloop in *.
  cbn [outcome trace fst snd] in *.
  assert (Hqt : queries
                  (t ++ [GetCommandInvocation cid iid;
                         Info "SSM command completed successfully"]) = k)
    by (rewrite queries_app, Hq; cbn; lia).
  assert (Hdt : delays
                  (t ++ [GetCommandInvocation cid iid;
                         Info "SSM command completed successfully"]) = k - 1)
    by (rewrite delays_app, Hd; cbn; lia).
  repeat split.
  - exact Hqt.
  - exact Hdt.
  - cbn [slept]. rewrite Hslept, Hdt. reflexivity.
Qed.

Lemma wait_succeeds_at_witness :
  outcome (waitForCommandCompletion successAtThird "cmd-1" "i-1" 60 2000)
  = Return {| commandId := "cmd-1"; status := "Success"; output := Some "" |}
  /\ queries (trace (waitForCommandCompletion successAtThird "cmd-1" "i-1"
                       60 2000)) = 3
  /\ slept (trace (waitForCommandCompletion successAtThird "cmd-1" "i-1"
                     60 2000)) = 4000%N.
Proof.
  destruct (wait_succeeds_at successAtThird "cmd-1" "i-1" 60 2000 3
              {| Status := Some "Success"; StandardOutputContent := None;
                 StandardErrorContent := None |})
    as (Ho & Hq & _ & Hs).
  - lia.
  - intros j Hj. destruct j as [|[|[|j]]]; try lia; reflexivity.
  - reflexivity.
  - reflexivity.
  - repeat split; assumption.
Defined.

(** X2.  [waitForCommandCompletion] returns a result only for Success: when
    it returns, some attempt [k] within the budget was answered with the
    status Success, every attempt before it was a retried one, and the result
    holds the command identifier it was called with, the status Success and
    the output of that answer. *)
Theorem wait_returns_only_success :
  forall (w : World) (cid iid : string) (maxAttempts : nat) (delayMs : N)
         (result : SSMCommandResult),
  outcome (waitForCommandCompletion w cid iid maxAttempts delayMs)
    = Return result ->
  exists k invocation,
    1 <= k <= maxAttempts
    /\ (forall j, 1 <= j < k ->
                  retried (getCommandInvocation w j cid iid) = true)
    /\ getCommandInvocation w k cid iid = inr invocation
    /\ Status invocation = Some "Success"
    /\ result = {| commandId := cid;
                   status := "Success";
                   output := Some (orElse (StandardOutputContent invocation)
                                     "") |}
    /\ queries (trace (waitForCommandCompletion w cid iid maxAttempts delayMs))
       = k.
Proof.
  intros w cid iid maxAttempts delayMs result. rewrite wait_unfold.
  cbn [outcome trace fst snd]. intros Ho.
  destruct (pollLoop_returns w cid iid maxAttempts delayMs maxAttempts 1
              result Ho)
    as (k & invocation & Hk & Hall & Ha & Hs & Hres & Hq & _).
  exists (S k), invocation. cbn [plus] in Ha.
  split; [lia|]. split; [intros j Hj; apply Hall; lia|].
  split; [exact Ha|]. split; [exact Hs|]. split; [exact Hres|].
  unfold queries in *. cbn. exact Hq.
Qed.

Lemma wait_returns_only_success_witness :
  exists k invocation,
    1 <= k <= 4
    /\ getCommandInvocation visibleThenSuccess k "cmd-1" "i-1" = inr invocation
    /\ Status invocation = Some "Success".
Proof.
  destruct (wait_returns_only_success visibleThenSuccess "cmd-1" "i-1" 4 2000
              {| commandId := "cmd-1"; status := "Success";
                 output := Some "ok" |})
    as (k & invocation & Hk & _ & Ha & Hs & _).
  - reflexivity.
  - exists k, invocation. repeat split; try assumption; lia.
Defined.

(** X3.  An error of the status query other than the one named
    InvocationDoesNotExist is not retried: at whatever attempt it comes,
    after retried polls, [waitForCommandCompletion] throws that very value,
    and the failed query is its last effect. *)
Theorem wait_query_error_propagates :
  forall (w : World) (cid iid : string) (maxAttempts : nat) (delayMs : N)
         (k : nat) (error : Thrown),
  1 <= k <= maxAttempts ->
  (forall j, 1 <= j < k -> retried (getCommandInvocation w j cid iid) = true) ->
  getCommandInvocation w k cid iid = inl error ->
  isErrorNamed error "InvocationDoesNotExist" = false ->
  let r := waitForCommandCompletion w cid iid maxAttempts delayMs in
  outcome r = Throw error
  /\ exists t,
       trace r = (t ++ [GetCommandInvocation cid iid])%list
       /\ queries t = k - 1 /\ delays t = k - 1.
Proof.
  intros w cid iid maxAttempts delayMs k error Hk Hretried Ha Hname r.
  destruct (wait_throws_at w cid iid maxAttempts delayMs k _ _ Hk Hretried
              (pollOnce_error w cid iid maxAttempts delayMs k error Ha Hname))
    as (t & Hr & Hq & Hd).
  subst r. rewrite Hr. cbn [outcome trace fst snd].
  split; [reflexivity|]. exists t. auto.
Qed.

Lemma wait_query_error_propagates_witness :
  outcome (waitForCommandCompletion accessDenied "cmd-1" "i-1" 60 2000)
  = Throw (ErrorObj "AccessDeniedException" "not authorized").
Proof.
  destruct (wait_query_error_propagates accessDenied "cmd-1" "i-1" 60 2000 2
              (ErrorObj "AccessDeniedException" "not authorized"))
    as (Ho & _).
  - lia.
  - intros j Hj. destruct j as [|[|j]]; try lia; reflexivity.
  - reflexivity.
  - reflexivity.
  - exact Ho.
Defined.

(** The sleeps of a whole run of the poller add up to one delay each. *)
Lemma wait_slept (w : World) (cid iid : string) (maxAttempts : nat)
    (delayMs : N) :
  let t := trace (waitForCommandCompletion w cid iid maxAttempts delayMs) in
  slept t = (N.of_nat (delays t) * delayMs)%N
  /\ queries t <= maxAttempts
  /\ forallb (pollerEvent cid iid delayMs) t = true.
Proof.
  intros t. subst t. rewrite wait_unfold. cbn [trace fst].
  destruct (pollLoop_invariant w cid iid maxAttempts delayMs maxAttempts 1)
    as (Hq & _ & Hs & Hall).
  unfold queries, delays in *.
  cbn [filter isQuery isSleep slept forallb pollerEvent andb].
  auto.
Qed.

(** A budget of retried answers only ends in the time-out error. *)
Lemma wait_retried_all (w : World) (cid iid : string) (maxAttempts : nat)
    (delayMs : N) :
  (forall j, 1 <= j <= maxAttempts ->
             retried (getCommandInvocation w j cid iid) = true) ->
  let r := waitForCommandCompletion w cid iid maxAttempts delayMs in
  outcome r =
    Throw (newError ("SSM command did not complete within "
                       ++ showThousandths (N.of_nat maxAttempts * delayMs)
                       ++ " seconds"))
  /\ queries (trace r) = maxAttempts
  /\ slept (trace r) = (N.of_nat maxAttempts * delayMs)%N.
Proof.
  intros Hretried r. subst r.
  destruct (pollLoop_retried w cid iid maxAttempts delayMs maxAttempts 0 1)
    as (t & Hloop & Hq & Hd).
  { intros j Hj. apply Hretried. lia. }
  rewrite Nat.add_0_r in Hloop.
  cbn [pollLoop throw trace outcome fst snd] in Hloop.
  rewrite app_nil_r in Hloop.
  destruct (wait_slept w cid iid maxAttempts delayMs) as (Hslept & _).
  split; [rewrite wait_unfold, Hloop; reflexivity|]. split.
  - rewrite wait_unfold, Hloop. unfold queries in *. cbn. exact Hq.
  - rewrite Hslept. rewrite wait_unfold, Hloop. cbn [trace fst].
    unfold delays in *. cbn [filter isSleep]. now rewrite Hd.
Qed.

(** X4.  Whatever the remote service answers, [waitForCommandCompletion]
    issues at most [maxAttempts] status queries, sleeps at most once per
    query and always for [delayMs], and performs nothing but log lines,
    status queries for its own command and instance, and those sleeps. *)
Theorem wait_stays_within_budget :
  forall (w : World) (cid iid : string) (maxAttempts : nat) (delayMs : N),
  let t := trace (waitForCommandCompletion w cid iid maxAttempts delayMs) in
  queries t <= maxAttempts
  /\ delays t <= queries t
  /\ slept t = (N.of_nat (delays t) * delayMs)%N
  /\ forallb (pollerEvent cid iid delayMs) t = true.
Proof.
  intros w cid iid maxAttempts delayMs t. subst t.
  rewrite wait_unfold. cbn [trace fst].
  destruct (pollLoop_invariant w cid iid maxAttempts delayMs maxAttempts 1)
    as (Hq & Hd & Hs & Hall).
  unfold queries, delays in *.
  cbn [filter isQuery isSleep slept forallb pollerEvent andb].
  auto.
Qed.

(** X5.  When every attempt of the budget is answered with a retried
    condition, the invocation not yet visible or the command still running in
    any mix, [waitForCommandCompletion] makes exactly [maxAttempts] queries,
    sleeps [maxAttempts * delayMs] milliseconds in all, the budget its error
    message states in seconds, and throws the time-out error.  With a budget
    of zero attempts it throws at once, without a query. *)
Theorem wait_retried_throughout_times_out :
  forall (w : World) (cid iid : string) (maxAttempts : nat) (delayMs : N),
  (N.of_nat maxAttempts * delayMs < 10 ^ 15)%N ->
  (forall j, 1 <= j <= maxAttempts ->
             retried (getCommandInvocation w j cid iid) = true) ->
  let r := waitForCommandCompletion w cid iid maxAttempts delayMs in
  outcome r =
    Throw (newError ("SSM command did not complete within "
                       ++ showThousandths (N.of_nat maxAttempts * delayMs)
                       ++ " seconds"))
  /\ queries (trace r) = maxAttempts
  /\ slept (trace r) = (N.of_nat maxAttempts * delayMs)%N
  /\ (maxAttempts = 0 ->
      trace r = [Info ("Waiting for SSM command " ++ cid ++ " to complete...")]).
Proof.
  intros w cid iid maxAttempts delayMs _ Hretried r. subst r.
  destruct (wait_retried_all w cid iid maxAttempts delayMs Hretried)
    as (Ho & Hq & Hs).
  split; [exact Ho|]. split; [exact Hq|]. split; [exact Hs|].
  intros ->. reflexivity.
Qed.

Lemma wait_retried_throughout_times_out_witness :
  outcome (waitForCommandCompletion neverVisible "cmd-1" "i-1" 3 500)
  = Throw (newError "SSM command did not complete within 1.5 seconds")
  /\ queries (trace (waitForCommandCompletion neverVisible "cmd-1" "i-1"
                       3 500)) = 3
  /\ slept (trace (waitForCommandCompletion neverVisible "cmd-1" "i-1"
                     3 500)) = 1500%N.
Proof.
  destruct (wait_retried_throughout_times_out neverVisible "cmd-1" "i-1"
              3 500)
    as (Ho & Hq & Hs & _).
  - vm_compute. reflexivity.
  - intros j Hj. destruct j as [|[|[|[|j]]]]; try lia; reflexivity.
  - repeat split; assumption.
Defined.

Lemma pollLoop_ext (w w' : World) (cid iid : string) (maxAttempts : nat)
    (delayMs : N) (remaining : nat) :
  forall attempt,
  (forall j, attempt <= j < attempt + remaining ->
             getCommandInvocation w' j cid iid =
             getCommandInvocation w j cid iid) ->
  pollLoop w' cid iid maxAttempts delayMs remaining attempt =
  pollLoop w cid iid maxAttempts delayMs remaining attempt.
Proof.
  induction remaining as [|remaining IH]; intros attempt Hsame;
    [reflexivity|].
  cbn [pollLoop].
  rewrite (pollOnce_ext w cid iid maxAttempts delayMs w' attempt)
    by (apply Hsame; lia).
  rewrite (IH (S attempt)) by (intros j Hj; apply Hsame; lia).
  reflexivity.
Qed.

(** X6.  [waitForCommandCompletion] reads nothing of the world but the
    answers to the status queries of its budget, for its own command and
    instance: two worlds that answer those [maxAttempts] queries alike make
    it perform the same effects and end the same way, whatever they would
    answer to later queries or hold elsewhere. *)
Theorem wait_depends_on_budget_answers_only :
  forall (w w' : World) (cid iid : string) (maxAttempts : nat) (delayMs : N),
  (forall j, 1 <= j <= maxAttempts ->
             getCommandInvocation w' j cid iid =
             getCommandInvocation w j cid iid) ->
  waitForCommandCompletion w' cid iid maxAttempts delayMs =
  waitForCommandCompletion w cid iid maxAttempts delayMs.
Proof.
  intros w w' cid iid maxAttempts delayMs Hsame.
  unfold waitForCommandCompletion.
  rewrite (pollLoop_ext w w' cid iid maxAttempts delayMs maxAttempts 1)
    by (intros j Hj; apply Hsame; lia).
  reflexivity.
Qed.

Lemma wait_depends_on_budget_answers_only_witness :
  waitForCommandCompletion
    (scriptedWorld [ answering "InProgress" None None;
                     answering "InProgress" None None ]
       (answering "Failed" None None))
    "cmd-1" "i-1" 2 500
  = waitForCommandCompletion foreverInProgress "cmd-1" "i-1" 2 500.
Proof.
  apply (wait_depends_on_budget_answers_only foreverInProgress
           (scriptedWorld [ answering "InProgress" None None;
                            answering "InProgress" None None ]
              (answering "Failed" None None))
           "cmd-1" "i-1" 2 500).
  intros j Hj. destruct j as [|[|[|j]]]; try lia; reflexivity.
Defined.

(** * Further properties of the object stager *)

Lemma stripS3Scheme_qualified_name (name : string) :
  stripS3Scheme ("s3://" ++ name) = name.
Proof. reflexivity. Qed.

Ltac split_char c :=
  destruct c as [[] [] [] [] [] [] [] []]; try reflexivity.

(** A name that does not start with the scheme is left as it is. *)
Lemma stripS3Scheme_bare_name (name : string) :
  prefix "s3://" name = false -> stripS3Scheme name = name.
Proof.
  intros Hprefix.
  destruct name as [|c1 name]; [reflexivity|]. split_char c1.
  destruct name as [|c2 name]; [reflexivity|]. split_char c2.
  destruct name as [|c3 name]; [reflexivity|]. split_char c3.
  destruct name as [|c4 name]; [reflexivity|]. split_char c4.
  destruct name as [|c5 name]; [reflexivity|]. split_char c5.
  exfalso. revert Hprefix. cbn [prefix].
  repeat match goal with
         | |- context [ascii_dec ?a ?b] =>
             destruct (ascii_dec a b); [|congruence]
         end.
  destruct name; discriminate.
Qed.

(** X7.  The bucket may be given bare or with the "s3://" scheme in front:
    for a name that does not itself start with the scheme, both forms make
    [uploadFileToS3] behave the same, and the result names the bare bucket.
    The scheme is removed once only: a second "s3://" stays in the name. *)
Theorem upload_accepts_both_bucket_forms :
  forall (w : World) (localPath name : string) (reg : option string),
  prefix "s3://" name = false ->
  uploadFileToS3 w localPath ("s3://" ++ name) reg =
  uploadFileToS3 w localPath name reg
  /\ (forall result,
        outcome (uploadFileToS3 w localPath name reg) = Return result ->
        bucket result = name
        /\ s3Uri result = "s3://" ++ name ++ "/" ++ key result)
  /\ stripS3Scheme ("s3://s3://" ++ name) = "s3://" ++ name.
Proof.
  intros w localPath name reg Hbare.
  assert (Hname := stripS3Scheme_bare_name name Hbare).
  split; [|split].
  - unfold uploadFileToS3. rewrite stripS3Scheme_qualified_name, Hname.
    reflexivity.
  - intros result Hup.
    assert (Hres := upload_outcome w localPath name reg).
    rewrite Hup in Hres. subst result. cbn [bucket s3Uri key].
    now rewrite Hname.
  - reflexivity.
Qed.

Lemma upload_accepts_both_bucket_forms_witness :
  uploadFileToS3 successAtOnce "build/app.tar" "s3://my-bucket" None =
  uploadFileToS3 successAtOnce "build/app.tar" "my-bucket" None.
Proof.
  destruct (upload_accepts_both_bucket_forms successAtOnce "build/app.tar"
              "my-bucket" None)
    as (Hsame & _).
  - reflexivity.
  - exact Hsame.
Defined.

(** X8.  A successful [uploadFileToS3] did exactly this, in this order: one
    [stat] that found a regular file, one read of the whole file, and one put
    of the content that was read, under the bucket and key that the result
    reports; the locator of the result is "s3://", the bucket, a slash and
    the key. *)
Theorem upload_success_shape :
  forall (w : World) (localPath bucketName : string) (reg : option string)
         (result : S3UploadResult),
  outcome (uploadFileToS3 w localPath bucketName reg) = Return result ->
  exists body,
    stat w localPath = inr true
    /\ readFile w localPath = inr body
    /\ trace (uploadFileToS3 w localPath bucketName reg) =
       [ StatSync localPath;
         Info ("Uploading " ++ localPath ++ " to s3://" ++ bucket result
                 ++ "/" ++ key result);
         ReadFileSync localPath;
         PutObject (clientRegion reg) (bucket result) (key result) body;
         Info ("Successfully uploaded file to " ++ s3Uri result) ]
    /\ s3Uri result = "s3://" ++ bucket result ++ "/" ++ key result
    /\ bucket result = stripS3Scheme bucketName.
Proof.
  intros w localPath bucketName reg result.
  destruct (stat w localPath) as [e | [|]] eqn:Hstat.
  - rewrite upload_no_file by congruence. discriminate.
  - destruct (readFile w localPath) as [e | body] eqn:Hread.
    + rewrite (upload_read_fails _ _ _ _ e) by assumption. discriminate.
    + destruct (putObject w (stripS3Scheme bucketName)
                  (stagingKey (now w) localPath) body) as [e | []] eqn:Hput.
      * rewrite (upload_put_fails _ _ _ _ body e) by assumption.
        discriminate.
      * rewrite (upload_succeeds _ _ _ _ body) by assumption.
        cbn [outcome trace fst snd]. intros [= <-]. exists body.
        repeat split.
  - rewrite upload_no_file by congruence. discriminate.
Qed.

Lemma upload_success_shape_witness :
  exists body,
    readFile successAtOnce "build/app.tar" = inr body
    /\ puts (trace (uploadFileToS3 successAtOnce "build/app.tar" "my-bucket"
                     None)) = 1.
Proof.
  destruct (upload_success_shape successAtOnce "build/app.tar" "my-bucket"
              None
              {| bucket := "my-bucket";
                 key := "github-actions-transfer/1700000000000-app.tar";
                 s3Uri :=
                   "s3://my-bucket/github-actions-transfer/1700000000000-app.tar"
              |})
    as (body & _ & Hread & Htrace & _).
  - reflexivity.
  - exists body. split; [exact Hread|]. rewrite Htrace. reflexivity.
Defined.

(** X9.  When the put fails, [uploadFileToS3] throws "Failed to upload file
    to S3: " followed by the message of the put error (its text when it is
    not an [Error]); the put was tried once and is the last effect: it is not
    retried and no success line is logged. *)
Theorem upload_put_failure :
  forall (w : World) (localPath bucketName : string) (reg : option string)
         (body : string) (error : Thrown),
  stat w localPath = inr true ->
  readFile w localPath = inr body ->
  putObject w (stripS3Scheme bucketName) (stagingKey (now w) localPath) body
    = inl error ->
  let r := uploadFileToS3 w localPath bucketName reg in
  outcome r =
    Throw (newError ("Failed to upload file to S3: " ++ errorMessage error))
  /\ puts (trace r) = 1
  /\ exists t,
       trace r =
       (t ++ [PutObject (clientRegion reg) (stripS3Scheme bucketName)
                (stagingKey (now w) localPath) body])%list
       /\ puts t = 0.
Proof.
  intros w localPath bucketName reg body error Hstat Hread Hput r. subst r.
  rewrite (upload_put_fails w localPath bucketName reg body error
             Hstat Hread Hput).
  cbn [outcome trace fst snd]. split; [reflexivity|]. split; [reflexivity|].
  eexists [_; _; _]. split; reflexivity.
Qed.

Lemma upload_put_failure_witness :
  outcome (uploadFileToS3 putDenied "build/app.tar" "s3://my-bucket" None)
  = Throw (newError "Failed to upload file to S3: Access Denied")
  /\ puts (trace (uploadFileToS3 putDenied "build/app.tar" "s3://my-bucket"
                   None)) = 1.
Proof.
  destruct (upload_put_failure putDenied "build/app.tar" "s3://my-bucket" None
              "content" (newError "Access Denied"))
    as (Ho & Hp & _); try reflexivity.
  split; assumption.
Defined.

Lemma prefix_app (s t : string) : prefix s (s ++ t) = true.
Proof.
  induction s as [|c s IH]; cbn [append prefix].
  - destruct t; reflexivity.
  - destruct (ascii_dec c c); [exact IH | congruence].
Qed.

(** The part of the next statement that counts effects on an explicit
    trace. *)
Ltac local_effects :=
  split; [eexists; reflexivity|];
  split; [cbn; lia|];
  split; [cbn; lia|];
  do 4 (split; [reflexivity|]).

(** X10.  Whatever the world, [uploadFileToS3] starts with the [stat] of the
    local path, makes at most one put and at most two file-system calls, and
    never submits a command, queries a status, sleeps or reports a failure
    itself.  What it throws is always an [Error], of one of two kinds told
    apart by the [stat] check alone: "Cannot access local file: ..." when
    the path is not a regular file, before anything is read or put, and
    "Failed to upload file to S3: ..." otherwise. *)
Theorem upload_effects_and_failure_kinds :
  forall (w : World) (localPath bucketName : string) (reg : option string),
  let r := uploadFileToS3 w localPath bucketName reg in
  (exists t, trace r = StatSync localPath :: t)
  /\ puts (trace r) <= 1
  /\ fileCalls (trace r) <= 2
  /\ submissions (trace r) = 0
  /\ queries (trace r) = 0
  /\ delays (trace r) = 0
  /\ failures (trace r) = []
  /\ (forall error,
        outcome r = Throw error ->
        exists message,
          error = newError message
          /\ if match stat w localPath with inr true => true | _ => false end
             then prefix "Failed to upload file to S3: " message = true
             else prefix "Cannot access local file: " message = true
                  /\ trace r = [StatSync localPath]).
Proof.
  intros w localPath bucketName reg r. subst r.
  destruct (stat w localPath) as [e | [|]] eqn:Hstat.
  - rewrite upload_no_file by congruence. rewrite Hstat.
    cbn [trace outcome fst snd].
    local_effects.
    intros error [= <-]. eexists.
    repeat split;
      first [ apply (prefix_app "Cannot access local file: ")
            | apply (prefix_app "Failed to upload file to S3: ") ].
  - destruct (readFile w localPath) as [e | body] eqn:Hread.
    + rewrite (upload_read_fails _ _ _ _ e) by assumption.
      cbn [trace outcome fst snd].
      local_effects.
      intros error [= <-]. eexists.
    repeat split;
      first [ apply (prefix_app "Cannot access local file: ")
            | apply (prefix_app "Failed to upload file to S3: ") ].
    + destruct (putObject w (stripS3Scheme bucketName)
                  (stagingKey (now w) localPath) body) as [e | []] eqn:Hput.
      * rewrite (upload_put_fails _ _ _ _ body e) by assumption.
        cbn [trace outcome fst snd].
        local_effects.
        intros error [= <-]. eexists.
    repeat split;
      first [ apply (prefix_app "Cannot access local file: ")
            | apply (prefix_app "Failed to upload file to S3: ") ].
      * rewrite (upload_succeeds _ _ _ _ body) by assumption.
        cbn [trace outcome fst snd].
        local_effects.
        intros error Hthrow. discriminate Hthrow.
  - rewrite upload_no_file by congruence. rewrite Hstat.
    cbn [trace outcome fst snd].
    local_effects.
    intros error [= <-]. eexists.
    repeat split;
      first [ apply (prefix_app "Cannot access local file: ")
            | apply (prefix_app "Failed to upload file to S3: ") ].
Qed.

Lemma upload_effects_and_failure_kinds_witness :
  exists message,
    outcome (uploadFileToS3 putDenied "build/app.tar" "my-bucket" None)
    = Throw (newError message)
    /\ prefix "Failed to upload file to S3: " message = true.
Proof.
  destruct (upload_effects_and_failure_kinds putDenied "build/app.tar"
              "my-bucket" None)
    as (_ & _ & _ & _ & _ & _ & _ & Hkinds).
  destruct (Hkinds (newError "Failed to upload file to S3: Access Denied"))
    as (message & Herror & Hprefix); [reflexivity|].
  exists message. split; [|exact Hprefix].
  rewrite <- Herror. reflexivity.
Defined.

(** * Further properties of the dispatcher *)

(** A trace of the polling loop holds no put, submission, file-system call or
    failure report. *)
Lemma pollerEvents_quiet (cid iid : string) (delayMs : N) (t : list Event) :
  forallb (pollerEvent cid iid delayMs) t = true ->
  submissions t = 0 /\ puts t = 0 /\ fileCalls t = 0 /\ failures t = [].
Proof.
  unfold submissions, puts, fileCalls.
  induction t as [|ev t IH]; cbn [forallb]; [auto|].
  intros H. apply andb_true_iff in H as [Hev Hrest].
  destruct (IH Hrest) as (Hs & Hp & Hf & Hr).
  destruct ev; cbn in Hev; try discriminate Hev; cbn; auto.
Qed.

(** X11.  When the submission call itself fails, [transferFileViaSSM] throws
    "Failed to transfer file via SSM: " followed by the message of that
    error; the submission was tried once and is the last effect, so no status
    is ever queried. *)
Theorem transfer_submission_failure :
  forall (w : World) (instanceId : string) (s3Result : S3UploadResult)
         (remotePath : string) (reg : option string) (error : Thrown),
  sendCommand w instanceId (transferCommands (s3Uri s3Result) remotePath)
    = inl error ->
  let r := transferFileViaSSM w instanceId s3Result remotePath reg in
  outcome r =
    Throw (newError ("Failed to transfer file via SSM: "
                       ++ errorMessage error))
  /\ trace r =
     [ Info ("Executing SSM command on instance " ++ instanceId
               ++ " to download file from " ++ s3Uri s3Result);
       SendCommand (clientRegion reg) instanceId "AWS-RunShellScript"
         (transferCommands (s3Uri s3Result) remotePath) ]
  /\ submissions (trace r) = 1
  /\ queries (trace r) = 0.
Proof.
  intros w instanceId s3Result remotePath reg error Hsend r. subst r.
  rewrite (transfer_send_fails w instanceId s3Result remotePath reg error
             Hsend).
  repeat split.
Qed.

Lemma transfer_submission_failure_witness :
  outcome (transferFileViaSSM sendDenied "i-1234567890abcdef0"
             {| bucket := "my-bucket"; key := "k"; s3Uri := "s3://my-bucket/k" |}
             "/opt/app/app.tar" None)
  = Throw (newError "Failed to transfer file via SSM: InvalidInstanceId").
Proof.
  destruct (transfer_submission_failure sendDenied "i-1234567890abcdef0"
              {| bucket := "my-bucket"; key := "k";
                 s3Uri := "s3://my-bucket/k" |}
              "/opt/app/app.tar" None (newError "InvalidInstanceId"))
    as (Ho & _).
  - reflexivity.
  - exact Ho.
Defined.

(** X12.  Whatever the world, [transferFileViaSSM] submits exactly one
    command, as its first call to the outside: the document
    AWS-RunShellScript for the one instance it was given, with the directory
    creation, the copy from the staged locator and the completion line in
    this order.  It makes at most 60 status queries, no put and no
    file-system call, and every error it throws is an [Error] whose message
    starts with "Failed to transfer file via SSM: ". *)
Theorem transfer_effects :
  forall (w : World) (instanceId : string) (s3Result : S3UploadResult)
         (remotePath : string) (reg : option string),
  let r := transferFileViaSSM w instanceId s3Result remotePath reg in
  (exists t,
     trace r =
     Info ("Executing SSM command on instance " ++ instanceId
             ++ " to download file from " ++ s3Uri s3Result)
     :: SendCommand (clientRegion reg) instanceId "AWS-RunShellScript"
          [ "mkdir -p $(dirname " ++ remotePath ++ ")";
            "aws s3 cp " ++ s3Uri s3Result ++ " " ++ remotePath;
            "echo " ++ dquote ++ "File transferred successfully to "
              ++ remotePath ++ dquote ]
     :: t
     /\ submissions t = 0)
  /\ submissions (trace r) = 1
  /\ queries (trace r) <= 60
  /\ puts (trace r) = 0
  /\ fileCalls (trace r) = 0
  /\ failures (trace r) = []
  /\ (forall error,
        outcome r = Throw error ->
        exists cause,
          error = newError ("Failed to transfer file via SSM: " ++ cause)).
Proof.
  intros w instanceId s3Result remotePath reg r. subst r.
  split; [|split; [|split; [|split; [|split; [|split]]]]];
    try (intros error Hthrow;
         exact (transfer_throws_own_error w _ _ _ _ error Hthrow)).
  all: destruct (sendCommand w instanceId
                   (transferCommands (s3Uri s3Result) remotePath))
         as [e | response] eqn:Hsend;
       [ rewrite (transfer_send_fails w _ _ _ _ e Hsend)
       | destruct (falsy (responseCommandId response)) eqn:Hid;
         [ rewrite (transfer_no_command_id w _ _ _ _ response Hsend Hid)
         | rewrite (transfer_dispatched w _ _ _ _ response Hsend Hid);
           destruct (wait_slept w
                       (interpolate (responseCommandId response)) instanceId
                       defaultMaxAttempts defaultDelayMs)
             as (_ & Hq & Hall);
           destruct (pollerEvents_quiet _ _ _ _ Hall)
             as (Hs & Hp & Hf & Hr) ] ];
       cbn [trace fst].
  all: try (eexists; split; reflexivity).
  all: try reflexivity.
  all: try (cbn; lia).
  - eexists. split; [reflexivity|].
    unfold submissions in *. cbn [filter isSend]. exact Hs.
  - unfold submissions in *. cbn [filter isSend length]. now rewrite Hs.
  - unfold queries, defaultMaxAttempts in *. cbn [filter isQuery]. exact Hq.
  - unfold puts in *. cbn [filter isPut]. exact Hp.
  - unfold fileCalls in *. cbn [filter isFileSystem]. exact Hf.
  - cbn [failures]. exact Hr.
Qed.

Lemma transfer_effects_witness :
  exists cause,
    outcome (transferFileViaSSM diskFull "i-1234567890abcdef0"
               {| bucket := "my-bucket"; key := "k";
                  s3Uri := "s3://my-bucket/k" |}
               "/opt/app/app.tar" None)
    = Throw (newError ("Failed to transfer file via SSM: " ++ cause)).
Proof.
  destruct (transfer_effects diskFull "i-1234567890abcdef0"
              {| bucket := "my-bucket"; key := "k";
                 s3Uri := "s3://my-bucket/k" |}
              "/opt/app/app.tar" None)
    as (_ & _ & _ & _ & _ & _ & Hthrows).
  destruct (Hthrows (newError
                       "Failed to transfer file via SSM: SSM command failed: disk full"))
    as (cause & Hcause); [reflexivity|].
  exists cause. rewrite <- Hcause. reflexivity.
Defined.

(** X13.  [transferFileViaSSM] polls with the default budget of 60 attempts
    2000 ms apart: when the command it dispatched is still not visible or
    still running at each of the 60 queries, it throws "Failed to transfer
    file via SSM: SSM command did not complete within 120 seconds", after 60
    queries and 120000 ms of sleep. *)
Theorem transfer_times_out_after_default_budget :
  forall (w : World) (instanceId : string) (s3Result : S3UploadResult)
         (remotePath : string) (reg : option string)
         (response : SendCommandCommandOutput) (id : string),
  sendCommand w instanceId (transferCommands (s3Uri s3Result) remotePath)
    = inr response ->
  responseCommandId response = Some id ->
  id <> "" ->
  (forall j, 1 <= j <= 60 ->
             retried (getCommandInvocation w j id instanceId) = true) ->
  let r := transferFileViaSSM w instanceId s3Result remotePath reg in
  outcome r =
    Throw (newError "Failed to transfer file via SSM: SSM command did not complete within 120 seconds")
  /\ queries (trace r) = 60
  /\ slept (trace r) = 120000%N.
Proof.
  intros w instanceId s3Result remotePath reg response id Hsend Hid Hne
    Hretried r. subst r.
  assert (Hfalsy : falsy (responseCommandId response) = false).
  { rewrite Hid. cbn. now apply String.eqb_neq. }
  rewrite (transfer_dispatched w _ _ _ _ response Hsend Hfalsy).
  rewrite Hid. cbn [interpolate].
  destruct (wait_retried_all w id instanceId defaultMaxAttempts defaultDelayMs
              Hretried)
    as (Ho & Hq & Hs).
  cbn [outcome trace fst snd]. cbn [outcome] in Ho. rewrite Ho.
  split; [reflexivity|]. split.
  - unfold queries in *. cbn [filter isQuery]. exact Hq.
  - cbn [slept]. exact Hs.
Qed.

Lemma transfer_times_out_after_default_budget_witness :
  outcome (transferFileViaSSM neverVisible "i-1234567890abcdef0"
             {| bucket := "my-bucket"; key := "k"; s3Uri := "s3://my-bucket/k" |}
             "/opt/app/app.tar" None)
  = Throw (newError "Failed to transfer file via SSM: SSM command did not complete within 120 seconds")
  /\ queries (trace (transferFileViaSSM neverVisible "i-1234567890abcdef0"
                       {| bucket := "my-bucket"; key := "k";
                          s3Uri := "s3://my-bucket/k" |}
                       "/opt/app/app.tar" None)) = 60.
Proof.
  destruct (transfer_times_out_after_default_budget neverVisible
              "i-1234567890abcdef0"
              {| bucket := "my-bucket"; key := "k";
                 s3Uri := "s3://my-bucket/k" |}
              "/opt/app/app.tar" None
              {| Command_ := Some {| CommandId := Some "cmd-1" |} |} "cmd-1")
    as (Ho & Hq & _).
  - reflexivity.
  - reflexivity.
  - discriminate.
  - intros j Hj. unfold neverVisible, scriptedWorld. cbn [getCommandInvocation].
    destruct (j - 1) as [|n]; [reflexivity | destruct n; reflexivity].
  - split; assumption.
Defined.

(** X14.  [transferFileViaSSM] returns only when the submission answered
    with a non-empty command identifier and a status query for that
    identifier on the target instance reported Success: the result carries
    that identifier and the status Success. *)
Theorem transfer_returns_only_success :
  forall (w : World) (instanceId : string) (s3Result : S3UploadResult)
         (remotePath : string) (reg : option string)
         (result : SSMCommandResult),
  outcome (transferFileViaSSM w instanceId s3Result remotePath reg)
    = Return result ->
  exists response id k invocation,
    sendCommand w instanceId (transferCommands (s3Uri s3Result) remotePath)
      = inr response
    /\ responseCommandId response = Some id
    /\ id <> ""
    /\ 1 <= k <= 60
    /\ getCommandInvocation w k id instanceId = inr invocation
    /\ Status invocation = Some "Success"
    /\ commandId result = id
    /\ status result = "Success"
    /\ output result = Some (orElse (StandardOutputContent invocation) "").
Proof.
  intros w instanceId s3Result remotePath reg result.
  destruct (sendCommand w instanceId
              (transferCommands (s3Uri s3Result) remotePath))
    as [e | response] eqn:Hsend.
  - rewrite (transfer_send_fails w _ _ _ _ e Hsend). discriminate.
  - destruct (falsy (responseCommandId response)) eqn:Hid.
    + rewrite (transfer_no_command_id w _ _ _ _ response Hsend Hid).
      discriminate.
    + rewrite (transfer_dispatched w _ _ _ _ response Hsend Hid).
      cbn [outcome snd].
      destruct (responseCommandId response) as [id|] eqn:Hsome;
        [|discriminate Hid].
      cbn [falsy interpolate] in *.
      destruct (outcome (waitForCommandCompletion w id instanceId
                           defaultMaxAttempts defaultDelayMs))
        as [polled | error] eqn:Hwait; [|intros Habs; discriminate Habs].
      intros [= <-].
      destruct (pollLoop_returns w id instanceId defaultMaxAttempts
                  defaultDelayMs defaultMaxAttempts 1 polled)
        as (k & invocation & Hk & _ & Ha & Hs & Hres & _).
      { rewrite wait_unfold in Hwait. exact Hwait. }
      exists response, id, (S k), invocation.
      subst polled. unfold defaultMaxAttempts in Hk. cbn [plus] in Ha.
      repeat split; try assumption; try lia.
      now apply String.eqb_neq.
Qed.

Lemma transfer_returns_only_success_witness :
  exists k invocation,
    1 <= k <= 60
    /\ getCommandInvocation successAtThird k "cmd-1" "i-1234567890abcdef0"
       = inr invocation
    /\ Status invocation = Some "Success".
Proof.
  destruct (transfer_returns_only_success successAtThird "i-1234567890abcdef0"
              {| bucket := "my-bucket"; key := "k";
                 s3Uri := "s3://my-bucket/k" |}
              "/opt/app/app.tar" None
              {| commandId := "cmd-1"; status := "Success";
                 output := Some "" |})
    as (response & id & k & invocation & Hsend & Hid & _ & Hk & Ha & Hs & _).
  - reflexivity.
  - exists k, invocation.
    assert (Hcmd : id = "cmd-1")
      by (cbn in Hsend; injection Hsend as <-; cbn in Hid; congruence).
    subst id. repeat split; try assumption; lia.
Defined.

(** * Further properties of the orchestrator *)












(** * Further properties of the staging key *)

Lemma list_ascii_of_string_app (a b : string) :
  list_ascii_of_string (a ++ b) =
  (list_ascii_of_string a ++ list_ascii_of_string b)%list.
Proof. induction a as [|c a IH]; cbn; [reflexivity | now rewrite IH]. Qed.

Lemma isSlash_false (c : ascii) : c <> "/"%char -> isSlash c = false.
Proof. intros H. unfold isSlash. now apply Ascii.eqb_neq. Qed.

Lemma dropSlashes_name (l : list ascii) :
  ~ In "/"%char l -> dropSlashes l = l.
Proof.
  destruct l as [|c l]; [reflexivity|]. intros H. cbn [dropSlashes].
  rewrite isSlash_false; [reflexivity|].
  intros ->. apply H. now left.
Qed.

Lemma takeToSlash_name (l rest : list ascii) :
  ~ In "/"%char l ->
  takeToSlash l = l /\ takeToSlash (l ++ "/"%char :: rest) = l.
Proof.
  induction l as [|c l IH]; intros H; [split; reflexivity|].
  cbn [takeToSlash app].
  rewrite isSlash_false by (intros ->; apply H; now left).
  destruct IH as (IH1 & IH2); [intros Hin; apply H; now right|].
  now rewrite IH1, IH2.
Qed.

(** X18.  The key takes the file name only: for a name without separator,
    the key made for the name inside any directory path is the key made for
    the bare name at the same millisecond, so files of the same name from
    different directories share the key within one millisecond. *)
Theorem staging_key_ignores_directory :
  forall (timestamp : N) (dir name : string),
  name <> "" ->
  includes name "/" = false ->
  basename (dir ++ "/" ++ name) = name
  /\ basename name = name
  /\ stagingKey timestamp (dir ++ "/" ++ name) =
     "github-actions-transfer/" ++ showN timestamp ++ "-" ++ name.
Proof.
  intros timestamp dir name Hname Hplain.
  apply includes_slash_false in Hplain.
  assert (Hrev : ~ In "/"%char (rev (list_ascii_of_string name)))
    by (now rewrite <- in_rev).
  assert (Hjoin : basename (dir ++ "/" ++ name) = name).
  { unfold basename. rewrite list_ascii_of_string_app.
    cbn [append list_ascii_of_string]. rewrite rev_app_distr.
    cbn [rev]. rewrite <- app_assoc. cbn [app].
    assert (Hdrop :
      dropSlashes (rev (list_ascii_of_string name)
                     ++ "/"%char :: rev (list_ascii_of_string dir)) =
      (rev (list_ascii_of_string name)
         ++ "/"%char :: rev (list_ascii_of_string dir))%list).
    { destruct (rev (list_ascii_of_string name)) as [|c l] eqn:Hl.
      - exfalso. apply Hname.
        rewrite <- (string_of_list_ascii_of_string name).
        rewrite <- (rev_involutive (list_ascii_of_string name)), Hl.
        reflexivity.
      - cbn [app dropSlashes].
        rewrite isSlash_false; [reflexivity|].
        intros ->. apply Hrev. now left. }
    rewrite Hdrop.
    rewrite (proj2 (takeToSlash_name _ _ Hrev)).
    rewrite rev_involutive. apply string_of_list_ascii_of_string. }
  split; [exact Hjoin|]. split.
  - unfold basename. rewrite (dropSlashes_name _ Hrev).
    rewrite (proj1 (takeToSlash_name _ [] Hrev)).
    rewrite rev_involutive. apply string_of_list_ascii_of_string.
  - unfold stagingKey. now rewrite Hjoin.
Qed.

Lemma staging_key_ignores_directory_witness :
  stagingKey 1700000000000 ("/srv/build" ++ "/" ++ "app.tar") =
  "github-actions-transfer/1700000000000-app.tar".
Proof.
  destruct (staging_key_ignores_directory 1700000000000 "/srv/build" "app.tar")
    as (_ & _ & Hkey).
  - discriminate.
  - reflexivity.
  - exact Hkey.
Defined.
